(** * SQL workbench: validation pipeline, fuzzy suggestions, fallback plans

    A shallow embedding of [sql_validator.py] (class [SQLValidator]) and of
    the plan fallback of [query_visualizer.py] (class [QueryVisualizer]),
    with the properties of the design document proved or refuted on it.

    Conventions of the embedding:
    - Python exceptions are values of [Exn]; a computation that may raise
      returns a [Result].
    - Python [int] values that count things are [nat]; Python [float]
      values are exact rationals ([Q]), compared up to [Qeq].
    - [str] is [string]; the character-wise algorithms work on the list of
      its characters.  Case folding and whitespace are those of ASCII.
    - [sqlparse] and [sqlite3] are libraries outside the repository: the
      token tree is a datatype, [sqlparse.parse] and the database answers
      are fields of an environment record. *)

From Stdlib Require Import QArith Lqa Ascii String.
From stdpp Require Import base option list strings gmap.

Local Open Scope nat_scope.

(** ** Exceptions and results *)

Inductive Exn : Type :=
  | SqliteError (msg : string)   (* sqlite3.Error, with str(e) *)
  | IndexError
  | AttributeError
  | ZeroDivisionError.

Inductive Result (A : Type) : Type :=
  | Ok (a : A)
  | Raise (e : Exn).
Arguments Ok {A} a.
Arguments Raise {A} e.

Global Instance Result_ret : MRet Result := λ A a, Ok a.
Global Instance Result_bind : MBind Result := λ A B f m,
  match m with
  | Ok a => f a
  | Raise e => Raise e
  end.

(** [for x in xs: acc = body acc x], stopping at the first exception. *)
Fixpoint for_loop {S X : Type} (xs : list X) (acc : S)
    (body : S → X → Result S) : Result S :=
  match xs with
  | [] => Ok acc
  | x :: xs' => acc' ← body acc x; for_loop xs' acc' body
  end.

(** [l[i]] for [i >= 0], and [l[-1]]. *)
Definition py_index {X : Type} (l : list X) (i : nat) : Result X :=
  match l !! i with
  | Some x => Ok x
  | None => Raise IndexError
  end.

Definition py_last {X : Type} (l : list X) : Result X :=
  match last l with
  | Some x => Ok x
  | None => Raise IndexError
  end.

(** [enumerate(l)] *)
Definition enumerate {X : Type} (l : list X) : list (nat * X) :=
  zip (seq 0 (length l)) l.

(** [min(a, b, c)] *)
Definition min3 (a b c : nat) : nat := a `min` (b `min` c).

(** [int(c1 != c2)], the value Python adds when a [bool] meets an [int]. *)
Definition bool_to_int (b : bool) : nat := if b then 1 else 0.

(** ** Fuzzy suggestion engine ([sql_validator.py], lines 246-272) *)

Section levenshtein_code.
Context {A : Type} `{EqDecision A}.

Definition neq_int (c1 c2 : A) : nat := bool_to_int (bool_decide (c1 ≠ c2)).

(** Body of the inner loop [for j, c2 in enumerate(s2)]. *)
Definition lev_inner_body (c1 : A) (previous_row current_row : list nat)
    (jc : nat * A) : Result (list nat) :=
  let '(j, c2) := jc in
  p1 ← py_index previous_row (j + 1);
  let insertions := p1 + 1 in
  cj ← py_index current_row j;
  let deletions := cj + 1 in
  p0 ← py_index previous_row j;
  let substitutions := p0 + neq_int c1 c2 in
  Ok (current_row ++ [min3 insertions deletions substitutions]).

(** Body of the outer loop [for i, c1 in enumerate(s1)]: the value of
    [previous_row] after the iteration. *)
Definition lev_outer_body (s2 : list A) (previous_row : list nat)
    (ic : nat * A) : Result (list nat) :=
  let '(i, c1) := ic in
  for_loop (enumerate s2) [i + 1] (lev_inner_body c1 previous_row).

(** [_levenshtein_distance] once [len(s1) >= len(s2)] is known. *)
Definition lev_ordered (s1 s2 : list A) : Result nat :=
  if decide (length s2 = 0) then Ok (length s1)
  else
    previous_row ← for_loop (enumerate s1) (seq 0 (length s2 + 1))
                      (lev_outer_body s2);
    py_last previous_row.

(** The recursive call of the first line swaps the arguments and is made
    at most once: in the callee the first string is the longer one. *)
Definition _levenshtein_distance (s1 s2 : list A) : Result nat :=
  if decide (length s1 < length s2) then lev_ordered s2 s1
  else lev_ordered s1 s2.

(** [distance / max_len], Python's true division of two ints. *)
Definition py_truediv (a b : nat) : Result Q :=
  if decide (b = 0) then Raise ZeroDivisionError
  else Ok (inject_Z (Z.of_nat a) / inject_Z (Z.of_nat b))%Q.

Definition _calculate_similarity (s1 s2 : list A) : Result Q :=
  if decide (length s1 = 0 ∨ length s2 = 0) then Ok 0%Q
  else
    distance ← _levenshtein_distance s1 s2;
    let max_len := length s1 `max` length s2 in
    ratio ← py_truediv distance max_len;
    Ok (1 - ratio)%Q.
End levenshtein_code.

(** *** Edit distance as the design document words it *)

Section edit_distance_spec.
Context {A : Type}.

(** One single-character insertion, deletion or substitution, at any
    position of the string. *)
Inductive edit1 : list A → list A → Prop :=
  | edit1_insert l c r : edit1 (l ++ r) (l ++ c :: r)
  | edit1_delete l c r : edit1 (l ++ c :: r) (l ++ r)
  | edit1_substitute l c d r : edit1 (l ++ c :: r) (l ++ d :: r).

(** [edits n a b]: [n] such operations, one after the other, turn [a]
    into [b]. *)
Inductive edits : nat → list A → list A → Prop :=
  | edits_done a : edits 0 a a
  | edits_step n a b c : edit1 a b → edits n b c → edits (S n) a c.

(** [n] is the minimum number of unit-cost operations from [a] to [b]. *)
Definition min_edits (a b : list A) (n : nat) : Prop :=
  edits n a b ∧ ∀ m, edits m a b → n ≤ m.
End edit_distance_spec.

(** The textbook recurrence, used as the bridge between the row-reuse loop
    and [min_edits]. *)
Fixpoint lev_rec {A : Type} `{EqDecision A} (s t : list A) : nat :=
  match s with
  | [] => length t
  | c :: s' =>
      (fix lev_row (t : list A) : nat :=
         match t with
         | [] => length s
         | d :: t' =>
             min3 (lev_rec s' t + 1) (lev_row t' + 1) (lev_rec s' t' + neq_int c d)
         end) t
  end.

(** Row of the dynamic-programming table that belongs to [s], the reversed
    prefix of the first string read so far: entry [j] compares it with the
    first [j] characters of [s2]. *)
Definition table_row {A : Type} `{EqDecision A} (s s2 : list A) (n : nat)
    : list nat :=
  (λ j, lev_rec s (reverse (take j s2))) <$> seq 0 n.

(** Alignments: an edit script read left to right, with its cost. *)
Inductive align {A : Type} : nat → list A → list A → Prop :=
  | align_nil : align 0 [] []
  | align_keep c s t n : align n s t → align n (c :: s) (c :: t)
  | align_subst c d s t n : align n s t → align (S n) (c :: s) (d :: t)
  | align_delete c s t n : align n s t → align (S n) (c :: s) t
  | align_insert d s t n : align n s t → align (S n) s (d :: t).

(** ** Strings *)

Local Open Scope string_scope.
Local Open Scope list_scope.
Local Open Scope nat_scope.

(** The characters of a [str]. *)
Definition chars (s : string) : list ascii := list_ascii_of_string s.

Definition ascii_between (lo hi : nat) (c : ascii) : bool :=
  ((lo <=? nat_of_ascii c) && (nat_of_ascii c <=? hi))%nat.

Definition ascii_lower (c : ascii) : ascii :=
  if ascii_between 65 90 c then ascii_of_nat (nat_of_ascii c + 32) else c.

Definition ascii_upper (c : ascii) : ascii :=
  if ascii_between 97 122 c then ascii_of_nat (nat_of_ascii c - 32) else c.

(** [s.lower()] and [s.upper()] *)
Fixpoint lower (s : string) : string :=
  match s with
  | EmptyString => EmptyString
  | String c s' => String (ascii_lower c) (lower s')
  end.

Fixpoint upper (s : string) : string :=
  match s with
  | EmptyString => EmptyString
  | String c s' => String (ascii_upper c) (upper s')
  end.

(** [c.isspace()]: tab, line feed, vertical tab, form feed, carriage
    return, the four separators 28-31, and the space. *)
Definition isspace (c : ascii) : bool :=
  ascii_between 9 13 c || ascii_between 28 32 c.

(** [s.strip()], on the list of characters. *)
Fixpoint lstrip (s : list ascii) : list ascii :=
  match s with
  | [] => []
  | c :: s' => if isspace c then lstrip s' else s
  end.

Definition strip (s : list ascii) : list ascii :=
  reverse (lstrip (reverse (lstrip s))).

(** [s.count(c)] for a one-character [c]. *)
Definition count_char (c : ascii) (s : string) : nat :=
  length (filter (λ x, x = c) (chars s)).

(** [needle in hay] *)
Fixpoint contains (needle hay : string) : bool :=
  String.prefix needle hay ||
  match hay with
  | EmptyString => false
  | String _ hay' => contains needle hay'
  end.

(** [x in names], for a tuple or list of string constants. *)
Definition str_in (x : string) (names : list string) : bool :=
  bool_decide (x ∈ names).

(** ** The token tree of [sqlparse] *)

(** Token types ([sqlparse.tokens]); [Keyword_DML] is [Keyword.DML], a
    child of [Keyword], and so on. *)
Inductive TType : Type :=
  | Keyword | Keyword_DML | Keyword_DDL | Keyword_CTE | Keyword_Order
  | Name | Name_Builtin | Wildcard
  | Whitespace | Newline
  | Punctuation | Operator | Operator_Comparison
  | Literal_Number | Literal_String | Comment | OtherType.

Global Instance TType_eq_dec : EqDecision TType.
Proof. solve_decision. Defined.

(** Classes of grouped tokens ([sqlparse.sql]), all subclasses of
    [TokenList]. *)
Inductive GroupClass : Type :=
  | Statement | Identifier | IdentifierList | Parenthesis
  | Comparison | Where | Function | Operation | OtherGroup.

Global Instance GroupClass_eq_dec : EqDecision GroupClass.
Proof. solve_decision. Defined.

(** A token is a leaf with a type and its text, or a group with its
    class, the answer of its [get_real_name()] and its children. *)
#[warnings="-register-all"] Inductive Token : Type :=
  | Leaf (ttype : TType) (value : string)
  | Group (cls : GroupClass) (real_name : option string) (tokens : list Token).

(** [ttype in T.Keyword] *)
Definition ttype_in_Keyword (t : TType) : bool :=
  match t with
  | Keyword | Keyword_DML | Keyword_DDL | Keyword_CTE | Keyword_Order => true
  | _ => false
  end.

(** [token.is_keyword]; a group has [ttype = None]. *)
Definition is_keyword (t : Token) : bool :=
  match t with
  | Leaf ty _ => ttype_in_Keyword ty
  | Group _ _ _ => false
  end.

(** [token.is_whitespace] *)
Definition is_whitespace (t : Token) : bool :=
  match t with
  | Leaf Whitespace _ | Leaf Newline _ => true
  | _ => false
  end.

(** [token.ttype is T] *)
Definition ttype_is (T : TType) (t : Token) : bool :=
  match t with
  | Leaf ty _ => bool_decide (ty = T)
  | Group _ _ _ => false
  end.

(** [isinstance(token, cls)] *)
Definition isinstance (t : Token) (c : GroupClass) : bool :=
  match t with
  | Leaf _ _ => false
  | Group cls _ _ => bool_decide (cls = c)
  end.

(** [token.value], which for a group is the text of its leaves. *)
Fixpoint token_value (t : Token) : string :=
  match t with
  | Leaf _ v => v
  | Group _ _ ts =>
      (fix values (ts : list Token) : string :=
         match ts with
         | [] => ""
         | t' :: ts' => token_value t' +:+ values ts'
         end) ts
  end.

(** [token.flatten()] *)
Fixpoint flatten (t : Token) : list Token :=
  match t with
  | Leaf _ _ => [t]
  | Group _ _ ts =>
      (fix leaves (ts : list Token) : list Token :=
         match ts with
         | [] => []
         | t' :: ts' => flatten t' ++ leaves ts'
         end) ts
  end.

(** [token.tokens]: only a [TokenList] has the attribute. *)
Definition token_tokens (t : Token) : Result (list Token) :=
  match t with
  | Leaf _ _ => Raise AttributeError
  | Group _ _ ts => Ok ts
  end.

(** [token.get_real_name()]: a method of [TokenList]. *)
Definition get_real_name (t : Token) : Result (option string) :=
  match t with
  | Leaf _ _ => Raise AttributeError
  | Group _ rn _ => Ok rn
  end.

(** [token.match(T.Punctuation, ',')] *)
Definition is_comma (t : Token) : bool :=
  match t with
  | Leaf Punctuation v => bool_decide (v = ",")
  | _ => false
  end.

(** [IdentifierList.get_identifiers()]: the children that are neither
    whitespace nor a comma. *)
Definition get_identifiers (ts : list Token) : list Token :=
  filter (λ t, negb (is_whitespace t || is_comma t) = true) ts.

(** [token.is_keyword and token.value.upper() in names] *)
Definition keyword_in (t : Token) (names : list string) : bool :=
  is_keyword t && str_in (upper (token_value t)) names.

(** [token.is_keyword and token.value.upper() not in names] *)
Definition keyword_not_in (t : Token) (names : list string) : bool :=
  is_keyword t && negb (str_in (upper (token_value t)) names).

(** ** Reference extractor ([sql_validator.py], lines 139-183) *)

(** Table names are what [get_real_name()] answers: a string or [None]. *)
Abbreviation TableRef := (option string).

(** [for identifier in token.get_identifiers():
       tables.append(identifier.get_real_name())] *)
Definition append_identifier_names (found : list TableRef) (items : list Token)
    : Result (list TableRef) :=
  for_loop (get_identifiers items) found
    (λ acc identifier, rn ← get_real_name identifier; Ok (acc ++ [rn])).

(** Body of the first loop, over [parsed.flatten()].  Its list [tables]
    is never read afterwards. *)
Definition flat_pass_body (st : bool * list TableRef) (token : Token)
    : Result (bool * list TableRef) :=
  let '(from_seen, tables) := st in
  if keyword_in token ["FROM"; "JOIN"] then Ok (true, tables)
  else
    '(from_seen, tables) ←
      (if from_seen && isinstance token Identifier then
         rn ← get_real_name token; Ok (false, tables ++ [rn])
       else if from_seen && isinstance token IdentifierList then
         items ← token_tokens token;
         tables' ← append_identifier_names tables items;
         Ok (false, tables')
       else Ok (from_seen, tables));
    if keyword_not_in token ["FROM"; "JOIN"; "ON"; "AS"] && from_seen
    then Ok (false, tables)
    else Ok (from_seen, tables).

(** [list(set(l))]: the distinct elements, in the order of the set. *)
Definition list_of_set (l : list TableRef) : list TableRef :=
  elements (list_to_set l : gset TableRef).

Fixpoint _extract_tables (parsed : Token) : Result (list TableRef) :=
  _ ← for_loop (flatten parsed) (false, []) flat_pass_body;
  match parsed with
  | Leaf _ _ => Raise AttributeError
  | Group _ _ tokens =>
      tables_found ←
        (fix loop (ts : list Token) (from_or_join_seen : bool)
             (tables_found : list TableRef) : Result (list TableRef) :=
           match ts with
           | [] => Ok tables_found
           | token :: ts' =>
               '(seen, found) ←
                 (if keyword_in token ["FROM"; "JOIN"] then Ok (true, tables_found)
                  else if from_or_join_seen then
                    found ←
                      match token with
                      | Group Identifier rn _ => Ok (tables_found ++ [rn])
                      | Group IdentifierList _ items =>
                          append_identifier_names tables_found items
                      | _ => Ok tables_found
                      end;
                    if keyword_not_in token ["AS"; "ON"; ","]
                    then Ok (false, found) else Ok (from_or_join_seen, found)
                  else Ok (from_or_join_seen, tables_found));
               found ←
                 match token with
                 | Group Statement _ _ =>
                     nested ← _extract_tables token; Ok (found ++ nested)
                 | _ => Ok found
                 end;
               loop ts' seen found
           end) tokens false [];
      Ok (list_of_set tables_found)
  end.

(** ** The validator object and its database *)

(** What the storage engine answers: rows, or an [sqlite3.Error] with its
    message. *)
Inductive DbAnswer (X : Type) : Type :=
  | DbRows (rows : X)
  | DbError (msg : string).
Arguments DbRows {X} rows.
Arguments DbError {X} msg.

(** A row of [PRAGMA table_info]; the code reads column 1, the name. *)
Record ColInfo : Type := mkColInfo {
  col_cid : nat;
  col_name : string;
  col_type : string;
  col_notnull : bool;
  col_pk : nat
}.

(** The two collaborators.  [db_connect k] tells whether the [k]-th call of
    [sqlite3.connect] made on the object succeeds; the three queries are
    those the validator sends. *)
Record Env : Type := mkEnv {
  sql_parse : string → list Token;                 (* sqlparse.parse *)
  db_connect : nat → bool;
  db_table_names : DbAnswer (list string);         (* SELECT name FROM sqlite_master ... *)
  db_table_info : string → DbAnswer (list ColInfo);(* PRAGMA table_info(name) *)
  db_explain : string → DbAnswer unit              (* EXPLAIN statement *)
}.

(** Every contact with the storage engine, oldest first. *)
Inductive Event : Type :=
  | EvConnect (ok : bool)
  | EvClose
  | EvTableNames
  | EvTableInfo (table : string)
  | EvExplain (sql : string).

(** The fields of a [SQLValidator]: [conn] is [true] when [self.conn] (and
    with it [self.cursor]) is set; [tables] and [columns] are the two
    dictionaries of the catalog; [connects] counts the calls of
    [sqlite3.connect]. *)
Record State : Type := mkState {
  conn : bool;
  tables : gmap string (list string);
  columns : gmap string (list string);
  connects : nat;
  events : list Event
}.

(** The object right after [__init__]. *)
Definition init_state : State :=
  {| conn := false; tables := ∅; columns := ∅; connects := 0; events := [] |}.

(** Methods: state in, result or exception and state out. *)
Definition M (X : Type) : Type := State → Result X * State.

Global Instance M_ret : MRet M := λ X x st, (Ok x, st).
Global Instance M_bind : MBind M := λ X Y f m st,
  match m st with
  | (Ok x, st') => f x st'
  | (Raise e, st') => (Raise e, st')
  end.

Definition lift {X : Type} (r : Result X) : M X := λ st, (r, st).

Definition get_state : M State := λ st, (Ok st, st).

Definition record (ev : Event) : M unit := λ st,
  (Ok tt, {| conn := conn st; tables := tables st; columns := columns st;
             connects := connects st; events := events st ++ [ev] |}).

Definition set_conn (b : bool) : M unit := λ st,
  (Ok tt, {| conn := b; tables := tables st; columns := columns st;
             connects := connects st; events := events st |}).

Definition count_connect : M unit := λ st,
  (Ok tt, {| conn := conn st; tables := tables st; columns := columns st;
             connects := S (connects st); events := events st |}).

Definition set_catalog (t c : gmap string (list string)) : M unit := λ st,
  (Ok tt, {| conn := conn st; tables := t; columns := c;
             connects := connects st; events := events st |}).

(** [try: body  except sqlite3.Error as e: handler(str(e))] *)
Definition try_sqlite {X : Type} (body : M X) (handler : string → M X) : M X :=
  λ st,
    match body st with
    | (Raise (SqliteError msg), st') => handler msg st'
    | other => other
    end.

(** [for x in xs: body(x)] *)
Fixpoint for_each {X : Type} (xs : list X) (body : X → M unit) : M unit :=
  match xs with
  | [] => mret tt
  | x :: xs' => _ ← body x; for_each xs' body
  end.

(** A query on the cursor: recorded, then answered by the engine. *)
Definition db_query {X : Type} (ev : Event) (answer : DbAnswer X) : M X :=
  _ ← record ev;
  match answer with
  | DbRows rows => mret rows
  | DbError msg => lift (Raise (SqliteError msg))
  end.

(** [close()]: drops the connection when there is one. *)
Definition close : M unit :=
  st ← get_state;
  if conn st then (_ ← record EvClose; set_conn false) else mret tt.

(** [_connect_db()]: closes a connection left open, then connects. *)
Definition _connect_db (env : Env) : M bool :=
  st ← get_state;
  _ ← (if conn st then record EvClose else mret tt);
  let ok := db_connect env (connects st) in
  _ ← count_connect;
  _ ← record (EvConnect ok);
  _ ← set_conn ok;
  mret ok.

(** ** Schema catalog ([sql_validator.py], lines 38-71) *)

(** The inner loop of [_load_schema] for one column of one table. *)
Definition load_column (table_name : string) (col_info : ColInfo) : M unit :=
  let column_name := col_name col_info in
  st ← get_state;
  let tables1 := alter (λ cols, cols ++ [column_name]) table_name (tables st) in
  let columns1 :=
    if decide (is_Some (columns st !! column_name)) then columns st
    else <[column_name := []]> (columns st) in
  let columns2 := alter (λ owners, owners ++ [table_name]) column_name columns1 in
  set_catalog tables1 columns2.

(** The outer loop of [_load_schema] for one table. *)
Definition load_table (env : Env) (table_name : string) : M unit :=
  st ← get_state;
  _ ← set_catalog (<[table_name := []]> (tables st)) (columns st);
  columns_info ← db_query (EvTableInfo table_name) (db_table_info env table_name);
  for_each columns_info (load_column table_name).

Definition _load_schema (env : Env) : M bool :=
  ok ← _connect_db env;
  if negb ok then mret false
  else
    try_sqlite
      (table_names ← db_query EvTableNames (db_table_names env);
       _ ← set_catalog ∅ ∅;
       _ ← for_each table_names (load_table env);
       _ ← close;
       mret true)
      (λ _, _ ← close; mret false).

(** ** Suggestions for a rejected statement ([sql_validator.py], 274-293) *)

Definition fallback_suggestions : list string :=
  ["检查SQL语法"; "确保所有引用的表和列都存在"; "检查数据类型是否匹配"].

(** The parameters [tables] and [columns] are not read by the method. *)
Definition _generate_suggestions_for_error (error_msg : string)
    (tables : list TableRef) (columns : list string) : list string :=
  let suggestions :=
    if contains "no such table" (lower error_msg) then
      ["检查表名是否正确拼写"; "确保表已经创建"]
    else if contains "no such column" (lower error_msg) then
      ["检查列名是否正确拼写"; "确保在正确的表中引用列"]
    else if contains "syntax error" (lower error_msg) then
      ["检查SQL语法是否正确"; "确保关键字拼写正确"; "检查括号、逗号等标点符号是否正确"]
    else if contains "ambiguous" (lower error_msg) then
      ["使用表名限定列名，例如 'table.column'"]
    else if contains "constraint" (lower error_msg) then
      ["检查是否违反了表的约束条件"; "确保插入或更新的数据符合表的约束"]
    else [] in
  if bool_decide (suggestions = []) then fallback_suggestions else suggestions.

(** [_find_similar_names], with the threshold as a rational. *)
Definition default_threshold : Q := 6 # 10.

Definition _find_similar_names (name : string) (name_list : list string)
    (threshold : Q) : Result (list string) :=
  for_loop name_list []
    (λ similar_names n,
       similarity ← _calculate_similarity (chars (lower name)) (chars (lower n));
       if Qle_bool threshold similarity then Ok (similar_names ++ [n])
       else Ok similar_names).

(** ** Validator ([sql_validator.py], lines 73-137) *)

(** [(is_valid, message, suggestions)]; the last two are [None] on success. *)
Definition Outcome : Type := bool * option string * option (list string).

Definition msg_connection_failed : string := "数据库连接失败，无法验证。".
Definition msg_empty_query : string := "SQL查询不能为空。".
Definition msg_syntax_error : string := "SQL语法错误".
Definition msg_unparsable : string := "无法解析SQL查询。".
Definition msg_single_statement : string := "只允许验证单个SQL语句。".

(** The list of keywords built by the method is not used for the result;
    [parse(...)[0]] on an empty tuple raises, which the method turns into
    [False]. *)
Definition _check_basic_syntax (env : Env) (sql_query : string) : bool :=
  if bool_decide (count_char "(" sql_query ≠ count_char ")" sql_query) then false
  else
    match py_index (sql_parse env sql_query) 0 ≫= token_tokens with
    | Ok [] => false
    | Ok (_ :: _) => true
    | Raise _ => false
    end.

(** [table not in self.tables] *)
Definition table_unknown (catalog : gmap string (list string)) (t : TableRef)
    : bool :=
  match t with
  | Some name => bool_decide (catalog !! name = None)
  | None => true
  end.

Definition validate (env : Env) (sql_query : string) : M Outcome :=
  ok ← _connect_db env;
  if negb ok then mret (false, Some msg_connection_failed, Some [])
  else
    _ ← _load_schema env;
    ok ← _connect_db env;
    if negb ok then mret (false, Some msg_connection_failed, Some [])
    else if bool_decide (strip (chars sql_query) = []) then
      _ ← close;
      mret (false, Some msg_empty_query, Some ["请输入有效的SQL查询。"])
    else if negb (_check_basic_syntax env sql_query) then
      _ ← close;
      mret (false, Some msg_syntax_error,
            Some ["检查SQL语法是否正确"; "确保关键字拼写正确"; "检查括号是否匹配"])
    else
      let parsed_statements := sql_parse env sql_query in
      match parsed_statements with
      | [] =>
          _ ← close;
          mret (false, Some msg_unparsable, Some ["请检查查询格式。"])
      | parsed :: _ =>
          if bool_decide (1 < length parsed_statements) then
            _ ← close;
            mret (false, Some msg_single_statement,
                  Some ["请将查询拆分为多个独立的语句进行验证。"])
          else
            let single_sql_query_for_explain := token_value parsed in
            tables_in_query ← lift (_extract_tables parsed);
            st ← get_state;
            let invalid_tables :=
              filter (λ t, table_unknown (tables st) t = true) tables_in_query in
            try_sqlite
              (_ ← db_query (EvExplain single_sql_query_for_explain)
                     (db_explain env single_sql_query_for_explain);
               _ ← close;
               mret (true, None, None))
              (λ error_msg,
                 let suggestions :=
                   _generate_suggestions_for_error error_msg tables_in_query [] in
                 _ ← close;
                 mret (false, Some error_msg, Some suggestions))
      end.

(** ** Plan builder fallback ([query_visualizer.py], lines 128-150) *)

Record PlanNode : Type := mkPlanNode {
  id : Z;
  parent : Z;
  operation : string
}.

Global Instance PlanNode_eq_dec : EqDecision PlanNode.
Proof. solve_decision. Defined.

(** [len(plan)] as a Python int. *)
Definition plan_len (plan : list PlanNode) : Z := Z.of_nat (length plan).

(** Body of [for token in parsed.tokens]; the state is
    [(plan, select_seen, from_seen, tables)]. *)
Definition plan_body (st : list PlanNode * bool * bool * list string)
    (token : Token) : list PlanNode * bool * bool * list string :=
  let '(plan, select_seen, from_seen, tables) := st in
  let '(plan, select_seen, from_seen) :=
    if ttype_is Keyword token then
      let keyword := upper (token_value token) in
      if bool_decide (keyword = "SELECT") then
        (plan ++ [mkPlanNode (plan_len plan) (-1) "SELECT"], true, from_seen)
      else if bool_decide (keyword = "FROM") then (plan, select_seen, true)
      else (plan, select_seen, from_seen)
    else (plan, select_seen, from_seen) in
  if from_seen && isinstance token Identifier then
    (plan ++ [mkPlanNode (plan_len plan) 0 ("SCAN TABLE " +:+ token_value token)],
     select_seen, from_seen, tables ++ [token_value token])
  else (plan, select_seen, from_seen, tables).

Definition default_plan : list PlanNode :=
  [mkPlanNode 0 (-1) "QUERY ROOT"; mkPlanNode 1 0 "EXECUTE SQL"].

Definition _parse_sql_manually (env : Env) (sql_query : string)
    : Result (list PlanNode) :=
  parsed ← py_index (sql_parse env sql_query) 0;
  tokens ← token_tokens parsed;
  let '(plan, _, _, _) := fold_left plan_body tokens ([], false, false, []) in
  if bool_decide (plan = []) then Ok default_plan else Ok plan.

(** The invariant of a plan in the design document: a node that is not a
    root (its parent is not [-1]) names as parent the id of a node placed
    strictly before it in the sequence. *)
Definition parent_introduced_earlier (plan : list PlanNode) : Prop :=
  ∀ i node, plan !! i = Some node → parent node ≠ (-1)%Z →
    ∃ j earlier, j < i ∧ plan !! j = Some earlier ∧ id earlier = parent node.

(** ** Notions used to state the properties *)

(** The similarity of the design document, in closed form: [0] when a
    string is empty, else one minus the edit distance over the longer
    length. *)
Definition similarity {A : Type} `{EqDecision A} (a b : list A) : Q :=
  if decide (a = [] ∨ b = []) then 0%Q
  else (1 - inject_Z (Z.of_nat (lev_rec a b))
            / inject_Z (Z.of_nat (length a `max` length b)))%Q.

(** A run of [validate] that gets as far as the explain-plan probe: both
    connections of the method succeed (the refresh in between makes one
    more), the text is not blank, passes the basic check, parses to the
    single statement [parsed], and the extractor answers [refs]. *)
Definition reaches_probe (env : Env) (st : State) (sql_query : string)
    (parsed : Token) (refs : list TableRef) : Prop :=
  db_connect env (connects st) = true ∧
  db_connect env (connects st + 2) = true ∧
  strip (chars sql_query) ≠ [] ∧
  _check_basic_syntax env sql_query = true ∧
  sql_parse env sql_query = [parsed] ∧
  _extract_tables parsed = Ok refs.

(** Tokens without children, which is all that [flatten] yields. *)
Definition is_leaf (t : Token) : Prop := ∃ ty v, t = Leaf ty v.

(** A method that leaves the connection counter alone, only adds to the
    record of events and raises nothing but [sqlite3.Error]. *)
Definition sqlite_only {X : Type} (m : M X) : Prop :=
  ∀ st, ∃ r st', m st = (r, st') ∧ connects st' = connects st ∧
    events st `prefix_of` events st' ∧
    match r with
    | Ok _ | Raise (SqliteError _) => True
    | Raise _ => False
    end.

(** ** Concrete inputs *)

(** Token trees as [sqlparse.parse] builds them. *)
Definition ws : Token := Leaf Whitespace " ".
Definition ident (name : string) : Token :=
  Group Identifier (Some name) [Leaf Name name].
Definition dotted (qualifier name : string) : Token :=
  Group Identifier (Some name)
    [Leaf Name qualifier; Leaf Punctuation "."; Leaf Name name].
Definition aliased (name alias : string) : Token :=
  Group Identifier (Some name) [Leaf Name name; ws; ident alias].
Definition select_star_from (source : list Token) : Token :=
  Group Statement None
    ([Leaf Keyword_DML "SELECT"; ws; Leaf Wildcard "*"; ws;
      Leaf Keyword "FROM"; ws] ++ source).

(** [SELECT * FROM A JOIN B ON A.id = B.id] *)
Definition stmt_join : Token :=
  select_star_from
    [ident "A"; ws; Leaf Keyword "JOIN"; ws; ident "B"; ws;
     Leaf Keyword "ON"; ws;
     Group Comparison None
       [dotted "A" "id"; ws; Leaf Operator_Comparison "="; ws; dotted "B" "id"]].

(** [SELECT * FROM Student s1 JOIN Student s2 ON s1.Sno = s2.Sno] *)
Definition stmt_self_join : Token :=
  select_star_from
    [aliased "Student" "s1"; ws; Leaf Keyword "JOIN"; ws;
     aliased "Student" "s2"; ws; Leaf Keyword "ON"; ws;
     Group Comparison None
       [dotted "s1" "Sno"; ws; Leaf Operator_Comparison "="; ws;
        dotted "s2" "Sno"]].

(** The two statements of [SELECT 1); SELECT 2]. *)
Definition stmt_select_1_paren : Token :=
  Group Statement None
    [Leaf Keyword_DML "SELECT"; ws; Leaf Literal_Number "1";
     Leaf Punctuation ")"; Leaf Punctuation ";"; ws].
Definition stmt_select_2 : Token :=
  Group Statement None [Leaf Keyword_DML "SELECT"; ws; Leaf Literal_Number "2"].

(** A tokenizer that knows the statements above. *)
Definition demo_parse (sql_query : string) : list Token :=
  if decide (sql_query = "SELECT * FROM Student") then
    [select_star_from [ident "Student"]]
  else if decide (sql_query = "SELECT * FROM Studnet") then
    [select_star_from [ident "Studnet"]]
  else if decide (sql_query = "SELECT * FROM t") then
    [select_star_from [ident "t"]]
  else if decide (sql_query = "SELECT * FROM A JOIN B ON A.id = B.id") then
    [stmt_join]
  else if decide (sql_query = "SELECT 1); SELECT 2") then
    [stmt_select_1_paren; stmt_select_2]
  else if decide (sql_query = "SELECT 1; SELECT 2") then
    [Group Statement None
       [Leaf Keyword_DML "SELECT"; ws; Leaf Literal_Number "1";
        Leaf Punctuation ";"; ws];
     stmt_select_2]
  else [].

Definition column (cid : nat) (name type : string) : ColInfo :=
  mkColInfo cid name type false 0.

(** A database with the tables Student and Teacher, which accepts the
    statements that name Student and rejects the others the way SQLite
    words it. *)
Definition demo_env : Env :=
  {| sql_parse := demo_parse;
     db_connect := λ _, true;
     db_table_names := DbRows ["Student"; "Teacher"];
     db_table_info := λ table,
       if decide (table = "Student") then
         DbRows [column 0 "Sno" "TEXT"; column 1 "Sname" "TEXT";
                 column 2 "Sage" "INTEGER"]
       else DbRows [column 0 "Tno" "TEXT"; column 1 "Tname" "TEXT"];
     db_explain := λ sql,
       if decide (sql = "SELECT * FROM Student") then DbRows tt
       else if decide (sql = "SELECT * FROM Studnet") then
         DbError "no such table: Studnet"
       else DbError "database is locked" |}.

(** The same database when no connection can be made. *)
Definition unreachable_env : Env :=
  {| sql_parse := demo_parse;
     db_connect := λ _, false;
     db_table_names := db_table_names demo_env;
     db_table_info := db_table_info demo_env;
     db_explain := db_explain demo_env |}.

(** The same database when the column query fails for Teacher. *)
Definition flaky_env : Env :=
  {| sql_parse := demo_parse;
     db_connect := λ _, true;
     db_table_names := db_table_names demo_env;
     db_table_info := λ table,
       if decide (table = "Student") then db_table_info demo_env table
       else DbError "disk I/O error";
     db_explain := db_explain demo_env |}.

(** A validator whose catalog was filled by an earlier refresh, before the
    table Course was renamed. *)
Definition stale_state : State :=
  {| conn := false;
     tables := {[ "Course" := ["Cno"; "Cname"] ]};
     columns := {[ "Cno" := ["Course"]; "Cname" := ["Course"] ]};
     connects := 1;
     events := [EvConnect true; EvTableNames; EvTableInfo "Course"; EvClose] |}.

(** ** Further notions *)

(** The second loop of [_extract_tables], over [parsed.tokens], as a
    function of its own; [nested] stands for the recursive call. *)
Fixpoint extract_loop (nested : Token → Result (list TableRef))
    (ts : list Token) (from_or_join_seen : bool)
    (tables_found : list TableRef) : Result (list TableRef) :=
  match ts with
  | [] => Ok tables_found
  | token :: ts' =>
      '(seen, found) ←
        (if keyword_in token ["FROM"; "JOIN"] then Ok (true, tables_found)
         else if from_or_join_seen then
           found ←
             match token with
             | Group Identifier rn _ => Ok (tables_found ++ [rn])
             | Group IdentifierList _ items =>
                 append_identifier_names tables_found items
             | _ => Ok tables_found
             end;
           if keyword_not_in token ["AS"; "ON"; ","]
           then Ok (false, found) else Ok (from_or_join_seen, found)
         else Ok (from_or_join_seen, tables_found));
      found ←
        match token with
        | Group Statement _ _ =>
            sub ← nested token; Ok (found ++ sub)
        | _ => Ok found
        end;
      extract_loop nested ts' seen found
  end.

(** [isinstance(token, TokenList)] *)
Definition is_group (t : Token) : bool :=
  match t with
  | Leaf _ _ => false
  | Group _ _ _ => true
  end.

(** A statement on which the extractor cannot fail: it is a group, the
    members of the identifier lists among its tokens are groups, and so
    for the statements nested among its tokens. *)
Fixpoint extractable (t : Token) : bool :=
  match t with
  | Leaf _ _ => false
  | Group _ _ ts =>
      (fix all (ts : list Token) : bool :=
         match ts with
         | [] => true
         | t' :: ts' =>
             match t' with
             | Group IdentifierList _ items =>
                 forallb is_group (get_identifiers items)
             | Group Statement _ _ => extractable t'
             | _ => true
             end && all ts'
         end) ts
  end.

(** [extractable] on the tokens of a group. *)
Definition extractable_token (t : Token) : bool :=
  match t with
  | Group IdentifierList _ items => forallb is_group (get_identifiers items)
  | Group Statement _ _ => extractable t
  | _ => true
  end.

(** [SELECT * FROM a, user]: the tokenizer takes [user] for a keyword, so
    the identifier list holds a bare token. *)
Definition stmt_keyword_table : Token :=
  select_star_from
    [Group IdentifierList None
       [ident "a"; Leaf Punctuation ","; ws; Leaf Keyword "user"]].

(** The demo database behind a tokenizer that knows that statement. *)
Definition keyword_table_env : Env :=
  {| sql_parse := λ sql_query,
       if decide (sql_query = "SELECT * FROM a, user") then [stmt_keyword_table]
       else demo_parse sql_query;
     db_connect := db_connect demo_env;
     db_table_names := db_table_names demo_env;
     db_table_info := db_table_info demo_env;
     db_explain := db_explain demo_env |}.

(** ** Schema information ([sql_validator.py], lines 295-308) *)

(** [get_schema_info()]: what it returns is [self.tables]; the table it
    prints is left out. *)
Definition get_schema_info (env : Env) : M (gmap string (list string)) :=
  st ← get_state;
  _ ← (if bool_decide (tables st = ∅) then _load_schema env else mret true);
  st' ← get_state;
  mret (tables st').

(** The column names the engine lists for a table. *)
Definition listed_columns (env : Env) (table : string) : list string :=
  match db_table_info env table with
  | DbRows cols => col_name <$> cols
  | DbError _ => []
  end.

(** [table] is among the owners that the column index has for [column]. *)
Definition owner_of (index : gmap string (list string))
    (column table : string) : Prop :=
  ∃ owners, index !! column = Some owners ∧ table ∈ owners.

(** The column index knows every column that [tables] lists. *)
Definition catalog_consistent (st : State) : Prop :=
  ∀ table cols column,
    tables st !! table = Some cols → column ∈ cols →
    owner_of (columns st) column table.

(** A method that keeps a property of the object, however it ends. *)
Definition keeps (P : State → Prop) {X : Type} (m : M X) : Prop :=
  ∀ st r st', m st = (r, st') → P st → P st'.

(** The ids of a plan are the positions of its nodes, and a parent is the
    root marker or the id 0. *)
Definition plan_well_numbered (plan : list PlanNode) : Prop :=
  ∀ i node, plan !! i = Some node →
    id node = Z.of_nat i ∧ (parent node = (-1)%Z ∨ parent node = 0%Z).

(** ** Column extractor ([sql_validator.py], lines 185-244) *)

(** The double quote character. *)
Definition dquote : ascii := ascii_of_nat 34.

(** [s.strip(c)] for a one-character [c]. *)
Fixpoint lstrip_char (c : ascii) (s : list ascii) : list ascii :=
  match s with
  | [] => []
  | x :: s' => if decide (x = c) then lstrip_char c s' else s
  end.

Definition strip_char (c : ascii) (s : string) : string :=
  string_of_list_ascii
    (reverse (lstrip_char c (reverse (lstrip_char c (chars s))))).

(** [s.split(sep, 1)] for a one-character [sep]: one part when [sep] does
    not occur, else the text before its first occurrence and the rest. *)
Fixpoint split1 (sep : ascii) (s : string) : list string :=
  match s with
  | EmptyString => [EmptyString]
  | String x s' =>
      if decide (x = sep) then [EmptyString; s']
      else
        match split1 sep s' with
        | head :: rest => String x head :: rest
        | [] => [String x EmptyString]
        end
  end.

(** [(column, qualifier)]; the column is what [get_real_name()] answers
    when the text has no dot. *)
Abbreviation ColumnRef := (option string * option string)%type.

(** The pair recorded for an identifier: the four places where the method
    records one have the same text. *)
Definition column_reference (token : Token) : Result ColumnRef :=
  if contains "." (token_value token) then
    let parts := split1 "." (token_value token) in
    p0 ← py_index parts 0;
    let table_part := strip_char dquote p0 in
    p1 ← py_index parts 1;
    let column_part := strip_char dquote p1 in
    Ok (Some column_part, Some table_part)
  else
    rn ← get_real_name token;
    Ok (rn, None).

(** [token.is_keyword and token.value.upper() == word] *)
Definition keyword_is (t : Token) (word : string) : bool :=
  is_keyword t && bool_decide (upper (token_value t) = word).

(** [token.match(T.Punctuation, '()')] *)
Definition is_call_parens (t : Token) : bool :=
  match t with
  | Leaf Punctuation v => bool_decide (v = "()")
  | _ => false
  end.

(** What one token after SELECT adds to [columns_found]. *)
Definition columns_of_token (columns_found : list ColumnRef) (token : Token)
    : Result (list ColumnRef) :=
  match token with
  | Group Identifier _ kids =>
      last_kid ← py_last kids;
      if is_call_parens last_kid then
        ref ← column_reference token; Ok (columns_found ++ [ref])
      else
        ref ← column_reference token; Ok (columns_found ++ [ref])
  | Group IdentifierList _ items =>
      for_loop (get_identifiers items) columns_found
        (λ found identifier_item,
           if isinstance identifier_item Identifier then
             ref ← column_reference identifier_item; Ok (found ++ [ref])
           else Ok found)
  | Leaf Wildcard _ => Ok (columns_found ++ [(Some "*", None)])
  | _ => Ok columns_found
  end.

(** The loop over [parsed.tokens], with its [break] and [continue]. *)
Fixpoint columns_loop (ts : list Token) (select_seen from_seen : bool)
    (columns_found : list ColumnRef) : Result (list ColumnRef) :=
  match ts with
  | [] => Ok columns_found
  | token :: ts' =>
      if from_seen then Ok columns_found
      else if keyword_is token "SELECT" then
        columns_loop ts' true from_seen columns_found
      else if keyword_is token "FROM" then
        columns_loop ts' select_seen true columns_found
      else if select_seen then
        found ← columns_of_token columns_found token;
        columns_loop ts' select_seen from_seen found
      else columns_loop ts' select_seen from_seen columns_found
  end.

(** [get_type] is [Statement.get_type()] of [sqlparse]; only a statement
    has the method. *)
Definition _extract_columns (get_type : Token → string) (parsed : Token)
    : Result (list ColumnRef) :=
  match parsed with
  | Group Statement _ tokens =>
      if bool_decide (get_type parsed ≠ "SELECT") then Ok []
      else columns_loop tokens false false []
  | _ => Raise AttributeError
  end.

(** [SELECT Sname FROM Student] followed by [rest]. *)
Definition select_sname_from_student (rest : list Token) : Token :=
  Group Statement None
    ([Leaf Keyword_DML "SELECT"; ws; ident "Sname"; ws]
     ++ Leaf Keyword "FROM" :: ([ws; ident "Student"] ++ rest)).

(** The clause [ WHERE Sage > 18]. *)
Definition where_sage_over_18 : list Token :=
  [ws; Group Where None
         [Leaf Keyword "WHERE"; ws;
          Group Comparison None
            [ident "Sage"; ws; Leaf Operator_Comparison ">"; ws;
             Leaf Literal_Number "18"]]].

(** The statement type as [sqlparse] computes it for statements that
    start with their first keyword. *)
Definition first_keyword_type (t : Token) : string :=
  match t with
  | Group _ _ (Leaf Keyword_DML v :: _) => upper v
  | _ => "UNKNOWN"
  end.

(** The connections that a record of events leaves open: one more for a
    successful connect, one less for a close. *)
Definition open_connections (evs : list Event) : Z :=
  fold_left
    (λ n ev,
       match ev with
       | EvConnect true => n + 1
       | EvClose => n - 1
       | _ => n
       end)%Z
    evs 0%Z.

(** The object holds a connection exactly when the record says that one
    is open. *)
Definition connection_accounted (st : State) : Prop :=
  open_connections (events st) = if conn st then 1%Z else 0%Z.

(** ** Query visualizer ([query_visualizer.py], lines 46-107, 199-207) *)

(** A value in a result row; REAL values are left out. *)
Inductive Cell : Type :=
  | CNull
  | CInt (z : Z)
  | CText (s : string).

(** What the storage engine answers to the visualizer.  [vis_connect k]
    tells whether its [k]-th call of [sqlite3.connect] succeeds;
    [vis_execute] gives, for a statement, the rows of [fetchall()] and
    the names in [cursor.description] when there is one. *)
Record VisEnv : Type := mkVisEnv {
  vis_connect : nat → bool;
  vis_execute : string → DbAnswer (list (list Cell) * option (list string));
  vis_commit : DbAnswer unit
}.

Inductive VisEvent : Type :=
  | VConnect (ok : bool)
  | VClose
  | VExecute (sql : string)
  | VCommit.

(** The fields of a [QueryVisualizer]. *)
Record VisState : Type := mkVisState {
  vconn : bool;
  vconnects : nat;
  vevents : list VisEvent
}.

Definition vis_init_state : VisState :=
  {| vconn := false; vconnects := 0; vevents := [] |}.

Module Visualizer.

Definition V (X : Type) : Type := VisState → Result X * VisState.

Definition ret {X : Type} (x : X) : V X := λ st, (Ok x, st).

Definition bind {X Y : Type} (m : V X) (f : X → V Y) : V Y := λ st,
  match m st with
  | (Ok x, st') => f x st'
  | (Raise e, st') => (Raise e, st')
  end.

Definition record (ev : VisEvent) : V unit := λ st,
  (Ok tt, {| vconn := vconn st; vconnects := vconnects st;
             vevents := vevents st ++ [ev] |}).

Definition set_conn (b : bool) : V unit := λ st,
  (Ok tt, {| vconn := b; vconnects := vconnects st; vevents := vevents st |}).

Definition count_connect : V unit := λ st,
  (Ok tt, {| vconn := vconn st; vconnects := S (vconnects st);
             vevents := vevents st |}).

(** A call on the connection or the cursor: recorded, then answered. *)
Definition db_call {X : Type} (ev : VisEvent) (answer : DbAnswer X) : V X :=
  bind (record ev) (λ _ st,
    match answer with
    | DbRows rows => (Ok rows, st)
    | DbError msg => (Raise (SqliteError msg), st)
    end).

(** [try: body  except sqlite3.Error: handler  except Exception: handler] *)
Definition try_except {X : Type} (body : V X) (handler : V X) : V X := λ st,
  match body st with
  | (Raise _, st') => handler st'
  | other => other
  end.

(** [close()] *)
Definition close : V unit := λ st,
  if vconn st then bind (record VClose) (λ _, set_conn false) st
  else (Ok tt, st).

(** [_connect_db()], the same text as in the validator. *)
Definition _connect_db (env : VisEnv) : V bool := λ st,
  bind (if vconn st then record VClose else ret tt) (λ _,
  let ok := vis_connect env (vconnects st) in
  bind count_connect (λ _,
  bind (record (VConnect ok)) (λ _,
  bind (set_conn ok) (λ _, ret ok)))) st.

(** [sql_query.strip().upper().startswith('SELECT')] *)
Definition starts_with_select (sql_query : string) : bool :=
  String.prefix "SELECT" (upper (string_of_list_ascii (strip (chars sql_query)))).

(** [(success, results, column_names)] *)
Definition Executed : Type :=
  bool * option (list (list Cell)) * option (list string).

(** [execute_and_visualize(sql_query)]; what it prints is left out, and
    printing is taken not to raise. *)
Definition execute_and_visualize (env : VisEnv) (sql_query : string) : V Executed :=
  bind (_connect_db env) (λ ok,
    if negb ok then ret (false, None, None)
    else
      try_except
        (bind (db_call (VExecute sql_query) (vis_execute env sql_query))
           (λ '(rows, description),
              if negb (starts_with_select sql_query) then
                bind (db_call VCommit (vis_commit env)) (λ _,
                bind close (λ _, ret (true, None, None)))
              else
                let results := rows in
                let column_names :=
                  match description with
                  | Some names => names
                  | None => []
                  end in
                bind close (λ _, ret (true, Some results, Some column_names))))
        (bind close (λ _, ret (false, None, None)))).

End Visualizer.

(** ** The command loop's SQL entry ([main.py], lines 99-112) *)

(** [statement.strip()] *)
Definition py_strip (s : string) : string :=
  string_of_list_ascii (strip (chars s)).

(** The validator and the visualizer of the session. *)
Definition Session : Type := State * VisState.

(** Body of [for statement in statements]: an exception of [validate]
    or of the visualizer is printed and the loop goes on. *)
Definition execute_statement (env : Env) (venv : VisEnv) (session : Session)
    (statement : string) : Session :=
  let statement := py_strip statement in
  if bool_decide (statement = "") then session
  else
    match validate env statement session.1 with
    | (Ok (is_valid, error_message, suggestions), st') =>
        if is_valid then
          (st', (Visualizer.execute_and_visualize venv statement session.2).2)
        else (st', session.2)
    | (Raise _, st') => (st', session.2)
    end.

(** [execute_sql_statements]; [sql_split] is [sqlparse.split]. *)
Definition execute_sql_statements (sql_split : string → list string)
    (env : Env) (venv : VisEnv) (sql_query : string) (session : Session)
    : Session :=
  fold_left (execute_statement env venv) (sql_split sql_query) session.

(** An engine that runs everything it is given. *)
Definition demo_vis_env : VisEnv :=
  {| vis_connect := λ _, true;
     vis_execute := λ sql,
       DbRows ([[CText "S1"; CText "Li"; CInt 20]], Some ["Sno"; "Sname"; "Sage"]);
     vis_commit := DbRows tt |}.

(** A splitter that knows one text of two statements and takes the
    others for a single statement. *)
Definition demo_split (sql_query : string) : list string :=
  if decide (sql_query = "SELECT * FROM Studnet; SELECT * FROM Student") then
    ["SELECT * FROM Studnet;"; "SELECT * FROM Student"]
  else [sql_query].

(** * Properties *)

(** ** The recurrence computes the minimum number of edits *)

Section edit_distance_facts.
Context {A : Type} `{EqDecision A}.
Implicit Types (s t u : list A) (c d : A).

Lemma neq_int_same c : neq_int c c = 0.
Proof. unfold neq_int. rewrite bool_decide_eq_false_2; [done | by intros []]. Qed.

Lemma neq_int_le c d : neq_int c d ≤ 1.
Proof. unfold neq_int. destruct (bool_decide _); simpl; lia. Qed.

Lemma lev_rec_nil_r s : lev_rec s [] = length s.
Proof. by destruct s. Qed.

Lemma lev_rec_cons c d s t :
  lev_rec (c :: s) (d :: t)
  = min3 (lev_rec s (d :: t) + 1) (lev_rec (c :: s) t + 1)
         (lev_rec s t + neq_int c d).
Proof. reflexivity. Qed.

Lemma align_all_insert t : align (length t) ([] : list A) t.
Proof. induction t; simpl; [constructor | by apply align_insert]. Qed.

Lemma align_all_delete s : align (length s) s ([] : list A).
Proof. induction s; simpl; [constructor | by apply align_delete]. Qed.

Lemma align_refl s : align 0 s s.
Proof. induction s; [constructor | by apply align_keep]. Qed.

(** The recurrence is the cost of some alignment ... *)
Lemma align_lev_rec s t : align (lev_rec s t) s t.
Proof.
  revert t. induction s as [|c s IHs]; intros t.
  { apply align_all_insert. }
  induction t as [|d t IHt].
  { rewrite lev_rec_nil_r. apply align_all_delete. }
  rewrite lev_rec_cons. unfold min3.
  destruct (Nat.min_spec (lev_rec s (d :: t) + 1)
              ((lev_rec (c :: s) t + 1) `min` (lev_rec s t + neq_int c d)))
    as [[_ ->]|[_ ->]].
  { rewrite Nat.add_1_r. apply align_delete, IHs. }
  destruct (Nat.min_spec (lev_rec (c :: s) t + 1) (lev_rec s t + neq_int c d))
    as [[_ ->]|[_ ->]].
  { rewrite Nat.add_1_r. by apply align_insert. }
  unfold neq_int. case_bool_decide as Hcd; simpl.
  - rewrite Nat.add_1_r. apply align_subst, IHs.
  - subst d. rewrite Nat.add_0_r. apply align_keep, IHs.
Qed.

Lemma lev_rec_delete_le c s t : lev_rec (c :: s) t ≤ S (lev_rec s t).
Proof.
  destruct t as [|d t].
  - rewrite !lev_rec_nil_r. simpl. lia.
  - rewrite lev_rec_cons. unfold min3. lia.
Qed.

Lemma lev_rec_insert_le d s t : lev_rec s (d :: t) ≤ S (lev_rec s t).
Proof.
  destruct s as [|c s].
  - simpl. lia.
  - rewrite lev_rec_cons. unfold min3. lia.
Qed.

(** ... and no alignment is cheaper. *)
Lemma align_lower_bound n s t : align n s t → lev_rec s t ≤ n.
Proof.
  induction 1 as [|c s t n _ IH|c d s t n _ IH|c s t n _ IH|d s t n _ IH].
  - done.
  - rewrite lev_rec_cons, neq_int_same. unfold min3. lia.
  - rewrite lev_rec_cons. pose proof (neq_int_le c d). unfold min3. lia.
  - pose proof (lev_rec_delete_le c s t). lia.
  - pose proof (lev_rec_insert_le d s t). lia.
Qed.

(** *** From alignments to chains of single edits *)

Lemma edit1_cons c s t : edit1 s t → edit1 (c :: s) (c :: t).
Proof.
  destruct 1 as [l x r|l x r|l x y r].
  - exact (edit1_insert (c :: l) x r).
  - exact (edit1_delete (c :: l) x r).
  - exact (edit1_substitute (c :: l) x y r).
Qed.

Lemma edits_cons n c s t : edits n s t → edits n (c :: s) (c :: t).
Proof.
  induction 1 as [|n a b e Hab _ IH]; [constructor|].
  eapply edits_step; [by apply edit1_cons | done].
Qed.

Lemma align_edits n s t : align n s t → edits n s t.
Proof.
  induction 1 as [|c s t n _ IH|c d s t n _ IH|c s t n _ IH|d s t n _ IH].
  - constructor.
  - by apply edits_cons.
  - eapply edits_step; [exact (edit1_substitute [] c d s)|by apply edits_cons].
  - eapply edits_step; [exact (edit1_delete [] c s)|done].
  - eapply edits_step; [exact (edit1_insert [] d s)|by apply edits_cons].
Qed.

(** *** One edit moves the cost of the best alignment by at most one *)

Lemma align_drop_head c r n u :
  align n (c :: r) u → ∃ m, m ≤ S n ∧ align m r u.
Proof.
  remember (c :: r) as cr eqn:E. intros H.
  induction H as [|x s t n H IH|x y s t n H IH|x s t n H IH|y s t n H IH];
    simplify_eq.
  - exists (S n). split; [lia | by apply align_insert].
  - exists (S n). split; [lia | by apply align_insert].
  - exists n. split; [lia | done].
  - destruct IH as (m & ? & ?); [done|].
    exists (S m). split; [lia | by apply align_insert].
Qed.

Lemma align_change_head c d r n u :
  align n (d :: r) u → ∃ m, m ≤ S n ∧ align m (c :: r) u.
Proof.
  remember (d :: r) as dr eqn:E. intros H.
  induction H as [|x s t n H IH|x y s t n H IH|x s t n H IH|y s t n H IH];
    simplify_eq.
  - exists (S n). split; [lia | by apply align_subst].
  - exists (S n). split; [lia | by apply align_subst].
  - exists (S n). split; [lia | by apply align_delete].
  - destruct IH as (m & ? & ?); [done|].
    exists (S m). split; [lia | by apply align_insert].
Qed.

Lemma align_under_head x s t :
  (∀ n u, align n t u → ∃ m, m ≤ S n ∧ align m s u) →
  ∀ n u, align n (x :: t) u → ∃ m, m ≤ S n ∧ align m (x :: s) u.
Proof.
  intros Hst n u H. remember (x :: t) as xt eqn:E.
  induction H as [|c s' t' n H IH|c d s' t' n H IH|c s' t' n H IH|d s' t' n H IH];
    simplify_eq.
  - destruct (Hst _ _ H) as (m & ? & ?).
    exists m. split; [lia | by apply align_keep].
  - destruct (Hst _ _ H) as (m & ? & ?).
    exists (S m). split; [lia | by apply align_subst].
  - destruct (Hst _ _ H) as (m & ? & ?).
    exists (S m). split; [lia | by apply align_delete].
  - destruct IH as (m & ? & ?); [done|].
    exists (S m). split; [lia | by apply align_insert].
Qed.

Lemma align_edit1 s t :
  edit1 s t → ∀ n u, align n t u → ∃ m, m ≤ S n ∧ align m s u.
Proof.
  destruct 1 as [l c r|l c r|l c d r];
    (induction l as [|x l IH]; simpl; [|by apply align_under_head]).
  - intros n u. apply align_drop_head.
  - intros n u H. exists (S n). split; [lia | by apply align_delete].
  - intros n u. apply align_change_head.
Qed.

Lemma edits_lower_bound n s t : edits n s t → lev_rec s t ≤ n.
Proof.
  induction 1 as [a|n a b c Hab _ IH].
  - apply align_lower_bound, align_refl.
  - destruct (align_edit1 _ _ Hab _ _ (align_lev_rec b c)) as (m & Hm & Ha).
    apply align_lower_bound in Ha. lia.
Qed.

Theorem lev_rec_min_edits s t : min_edits s t (lev_rec s t).
Proof.
  split.
  - apply align_edits, align_lev_rec.
  - intros m. apply edits_lower_bound.
Qed.

Lemma min_edits_unique s t n m : min_edits s t n → min_edits s t m → n = m.
Proof. intros [H1 L1] [H2 L2]. apply L1 in H2. apply L2 in H1. lia. Qed.

(** *** Symmetry and reversal *)

Lemma edit1_sym s t : edit1 s t → edit1 t s.
Proof. destruct 1; constructor. Qed.

Lemma edits_snoc n s t u : edits n s t → edit1 t u → edits (S n) s u.
Proof.
  induction 1 as [a|n a b' b Hab _ IH]; intros Hbc.
  - eapply edits_step; [done | constructor].
  - eapply edits_step; [done | by apply IH].
Qed.

Lemma edits_sym n s t : edits n s t → edits n t s.
Proof.
  induction 1 as [a|n a b c Hab _ IH]; [constructor|].
  eapply edits_snoc; [done | by apply edit1_sym].
Qed.

Lemma reverse_middle (l r : list A) c :
  reverse (l ++ c :: r) = reverse r ++ c :: reverse l.
Proof. by rewrite reverse_app, reverse_cons, <-app_assoc. Qed.

Lemma edit1_reverse s t : edit1 s t → edit1 (reverse s) (reverse t).
Proof.
  destruct 1; rewrite ?reverse_middle, ?reverse_app; constructor.
Qed.

Lemma edits_reverse n s t : edits n s t → edits n (reverse s) (reverse t).
Proof.
  induction 1 as [a|n a b c Hab _ IH]; [constructor|].
  eapply edits_step; [by apply edit1_reverse | done].
Qed.

Lemma min_edits_sym s t n : min_edits s t n → min_edits t s n.
Proof.
  intros [H L]. split; [by apply edits_sym|].
  intros m Hm. by apply L, edits_sym.
Qed.

Lemma min_edits_reverse s t n :
  min_edits (reverse s) (reverse t) n → min_edits s t n.
Proof.
  intros [H L]. split.
  - apply edits_reverse in H. by rewrite !reverse_involutive in H.
  - intros m Hm. by apply L, edits_reverse.
Qed.

Lemma lev_rec_sym s t : lev_rec s t = lev_rec t s.
Proof.
  eapply min_edits_unique; [apply lev_rec_min_edits|].
  apply min_edits_sym, lev_rec_min_edits.
Qed.

Lemma lev_rec_reverse s t : lev_rec (reverse s) (reverse t) = lev_rec s t.
Proof.
  eapply min_edits_unique; [|apply lev_rec_min_edits].
  apply min_edits_reverse, lev_rec_min_edits.
Qed.

Lemma lev_rec_refl s : lev_rec s s = 0.
Proof. pose proof (align_lower_bound _ _ _ (align_refl s)). lia. Qed.

Lemma lev_rec_le_max s t : lev_rec s t ≤ length s `max` length t.
Proof.
  revert t. induction s as [|c s IH]; intros t; [simpl; lia|].
  destruct t as [|d t]; [rewrite lev_rec_nil_r; lia|].
  rewrite lev_rec_cons. specialize (IH t). pose proof (neq_int_le c d).
  unfold min3. simpl. lia.
Qed.
End edit_distance_facts.

(** ** The row-reuse loops compute the recurrence *)

Section levenshtein_loops.
Context {A : Type} `{EqDecision A}.
Implicit Types (s : list A) (c : A).

Lemma py_index_table_row s s2 n j :
  j < n → py_index (table_row s s2 n) j = Ok (lev_rec s (reverse (take j s2))).
Proof.
  intros Hj. unfold py_index, table_row.
  by rewrite list_lookup_fmap, lookup_seq_lt.
Qed.

Lemma table_row_S s s2 n :
  table_row s s2 (S n)
  = table_row s s2 n ++ [lev_rec s (reverse (take n s2))].
Proof. unfold table_row. by rewrite seq_S, fmap_app. Qed.

Lemma py_last_table_row s s2 n :
  py_last (table_row s s2 (S n)) = Ok (lev_rec s (reverse (take n s2))).
Proof. unfold py_last. by rewrite table_row_S, last_snoc. Qed.

Lemma table_row_nil s2 n :
  n ≤ S (length s2) → table_row [] s2 n = seq 0 n.
Proof.
  induction n as [|n IH]; intros Hn; [done|].
  rewrite table_row_S, seq_S, IH by lia. simpl.
  by rewrite length_reverse, length_take, Nat.min_l by lia.
Qed.

Lemma table_row_first c s s2 : table_row (c :: s) s2 1 = [length s + 1].
Proof. unfold table_row. simpl. by rewrite Nat.add_1_r. Qed.

(** One iteration of the inner loop fills column [j + 1]. *)
Lemma lev_inner_body_step c s s2 j c2 :
  s2 !! j = Some c2 →
  lev_inner_body c (table_row s s2 (S (length s2)))
    (table_row (c :: s) s2 (S j)) (j, c2)
  = Ok (table_row (c :: s) s2 (S (S j))).
Proof.
  intros Hj. pose proof (lookup_lt_Some _ _ _ Hj) as Hlt.
  unfold lev_inner_body.
  rewrite !py_index_table_row by lia. cbn [mbind Result_bind].
  rewrite (table_row_S (c :: s) s2 (S j)).
  replace (j + 1) with (S j) by lia.
  by rewrite (take_S_r _ _ _ Hj), reverse_snoc, lev_rec_cons.
Qed.

(** Inner loop, from column [length done] on. *)
Lemma lev_inner_loop c s done rest :
  for_loop (zip (seq (length done) (length rest)) rest)
    (table_row (c :: s) (done ++ rest) (S (length done)))
    (lev_inner_body c (table_row s (done ++ rest) (S (length (done ++ rest)))))
  = Ok (table_row (c :: s) (done ++ rest) (S (length (done ++ rest)))).
Proof.
  revert done. induction rest as [|c2 rest IH]; intros done.
  { by rewrite app_nil_r. }
  specialize (IH (done ++ [c2])).
  rewrite <-(assoc_L (++)) in IH. simpl in IH.
  rewrite length_app in IH. simpl in IH. rewrite Nat.add_1_r in IH.
  cbn [length seq zip zip_with for_loop].
  rewrite lev_inner_body_step by (by apply list_lookup_middle).
  exact IH.
Qed.

(** One iteration of the outer loop replaces the row of [done] by the
    row of [done ++ [c1]]. *)
Lemma lev_outer_body_step s2 done c1 :
  lev_outer_body s2 (table_row (reverse done) s2 (S (length s2)))
    (length done, c1)
  = Ok (table_row (c1 :: reverse done) s2 (S (length s2))).
Proof.
  unfold lev_outer_body, enumerate.
  rewrite <-(length_reverse done), <-(table_row_first c1 _ s2).
  apply (lev_inner_loop c1 (reverse done) [] s2).
Qed.

(** Outer loop, from row [length done] on. *)
Lemma lev_outer_loop s2 done rest :
  for_loop (zip (seq (length done) (length rest)) rest)
    (table_row (reverse done) s2 (S (length s2)))
    (lev_outer_body s2)
  = Ok (table_row (reverse (done ++ rest)) s2 (S (length s2))).
Proof.
  revert done. induction rest as [|c1 rest IH]; intros done.
  { by rewrite app_nil_r. }
  specialize (IH (done ++ [c1])).
  rewrite <-(assoc_L (++)), reverse_snoc in IH. simpl in IH.
  rewrite length_app in IH. simpl in IH. rewrite Nat.add_1_r in IH.
  cbn [length seq zip zip_with for_loop].
  rewrite lev_outer_body_step. exact IH.
Qed.

Lemma lev_ordered_eq s1 s2 : lev_ordered s1 s2 = Ok (lev_rec s1 s2).
Proof.
  unfold lev_ordered. case_decide as Hlen.
  { destruct s2; [|done]. by rewrite lev_rec_nil_r. }
  unfold enumerate. replace (length s2 + 1) with (S (length s2)) by lia.
  rewrite <-(table_row_nil s2 (S (length s2))) by lia.
  rewrite (lev_outer_loop s2 [] s1
           : for_loop (zip (seq 0 (length s1)) s1) (table_row [] s2 _) _
             = Ok (table_row (reverse s1) s2 _)).
  cbn [mbind Result_bind].
  by rewrite py_last_table_row, take_ge, lev_rec_reverse.
Qed.

Theorem levenshtein_distance_eq s1 s2 :
  _levenshtein_distance s1 s2 = Ok (lev_rec s1 s2).
Proof.
  unfold _levenshtein_distance. case_decide.
  - by rewrite lev_ordered_eq, lev_rec_sym.
  - apply lev_ordered_eq.
Qed.
End levenshtein_loops.

(** ** Similarity *)

Section similarity_facts.
Context {A : Type} `{EqDecision A}.
Implicit Types a b s : list A.

Lemma length_zero_iff_nil' a : length a = 0 ↔ a = [].
Proof. by destruct a. Qed.

Lemma calculate_similarity_eq a b :
  _calculate_similarity a b = Ok (similarity a b).
Proof.
  unfold _calculate_similarity, similarity.
  destruct (decide (a = [] ∨ b = [])) as [He|Hne].
  { rewrite decide_True; [done|]. by rewrite !length_zero_iff_nil'. }
  rewrite decide_False by (by rewrite !length_zero_iff_nil').
  rewrite levenshtein_distance_eq. cbn [mbind Result_bind].
  unfold py_truediv. case_decide as Hmax; [|done].
  destruct a, b; simpl in Hmax; try lia; exfalso; apply Hne; auto.
Qed.

Lemma similarity_range a b : (0 <= similarity a b <= 1)%Q.
Proof.
  unfold similarity. case_decide as Hne; [split; discriminate|].
  pose proof (lev_rec_le_max a b) as Hle.
  assert (0 < length a `max` length b) as Hpos.
  { destruct a; [exfalso; apply Hne; auto | simpl; lia]. }
  set (d := lev_rec a b) in *. set (m := length a `max` length b) in *.
  assert (0 <= inject_Z (Z.of_nat d) / inject_Z (Z.of_nat m) <= 1)%Q as [H0 H1].
  { assert (0 < inject_Z (Z.of_nat m))%Q as Hm.
    { change 0%Q with (inject_Z 0). rewrite <-Zlt_Qlt. lia. }
    split.
    - apply Qle_shift_div_l; [done|]. rewrite Qmult_0_l.
      change 0%Q with (inject_Z 0). rewrite <-Zle_Qle. lia.
    - apply Qle_shift_div_r; [done|]. rewrite Qmult_1_l.
      rewrite <-Zle_Qle. lia. }
  revert H0 H1. generalize (inject_Z (Z.of_nat d) / inject_Z (Z.of_nat m))%Q.
  intros r H0 H1. split; lra.
Qed.

Lemma similarity_same s : s ≠ [] → (similarity s s == 1)%Q.
Proof.
  intros Hs. unfold similarity. case_decide as H'; [tauto|].
  rewrite lev_rec_refl. simpl. unfold Qdiv. rewrite Qmult_0_l. ring.
Qed.

Lemma similarity_empty a b : a = [] ∨ b = [] → similarity a b = 0%Q.
Proof. intros H'. unfold similarity. by case_decide. Qed.
End similarity_facts.

(** C7. For all strings [a] and [b], the edit distance computed by the
    row-reuse loops is the minimum number of single-character insertions,
    deletions and substitutions that turn [a] into [b]; the similarity is
    returned (no exception), lies between 0 and 1, equals one minus the
    distance over the longer length whenever that quotient is defined (the
    strings are not both empty), is exactly 0 as soon as one string is
    empty, and is 1 for a non-empty string compared with itself. *)
Theorem C7_similarity_is_normalised_edit_distance
    {A : Type} `{EqDecision A} (a b : list A) :
  ∃ (d : nat) (sim : Q),
    _levenshtein_distance a b = Ok d ∧
    min_edits a b d ∧
    _calculate_similarity a b = Ok sim ∧
    (0 <= sim <= 1)%Q ∧
    (a ≠ [] ∨ b ≠ [] →
       (sim == 1 - inject_Z (Z.of_nat d)
                   / inject_Z (Z.of_nat (length a `max` length b)))%Q) ∧
    (a = [] ∨ b = [] → sim = 0%Q) ∧
    (a ≠ [] → a = b → (sim == 1)%Q).
Proof.
  exists (lev_rec a b), (similarity a b).
  split; [apply levenshtein_distance_eq|].
  split; [apply lev_rec_min_edits|].
  split; [apply calculate_similarity_eq|].
  split; [apply similarity_range|].
  split; [|split].
  - intros Hne. unfold similarity. case_decide as He; [|reflexivity].
    assert (lev_rec a b = length a `max` length b ∧ 0 < length a `max` length b)
      as [-> Hpos].
    { destruct He as [-> | ->].
      - destruct b; [tauto|]. simpl. lia.
      - rewrite lev_rec_nil_r. destruct a; [tauto|]. simpl. lia. }
    assert (¬ (inject_Z (Z.of_nat (length a `max` length b)) == 0)%Q) as Hnz.
    { change 0%Q with (inject_Z 0). rewrite inject_Z_injective. lia. }
    field. exact Hnz.
  - apply similarity_empty.
  - intros Hne <-. by apply similarity_same.
Qed.

Lemma C7_witness :
  ∃ sim : Q,
    _calculate_similarity (chars "kitten") (chars "sitting") = Ok sim ∧
    (sim == 4 # 7)%Q.
Proof.
  destruct (C7_similarity_is_normalised_edit_distance
              (chars "kitten") (chars "sitting"))
    as (d & sim & Hd & _ & Hsim & _ & Hformula & _).
  exists sim. split; [exact Hsim|].
  rewrite Hformula by (left; discriminate).
  vm_compute in Hd. injection Hd as <-. reflexivity.
Defined.

(** ** Suggestions by similarity *)

Lemma find_similar_names_loop (name : string) (threshold : Q)
    (pool acc : list string) :
  for_loop pool acc
    (λ similar_names n,
       similarity ← _calculate_similarity (chars (lower name)) (chars (lower n));
       if Qle_bool threshold similarity then Ok (similar_names ++ [n])
       else Ok similar_names)
  = Ok (acc ++ List.filter
          (λ n, Qle_bool threshold
                  (similarity (chars (lower name)) (chars (lower n)))) pool).
Proof.
  revert acc. induction pool as [|n pool IH]; intros acc; simpl.
  { by rewrite app_nil_r. }
  rewrite calculate_similarity_eq. cbn [mbind Result_bind].
  destruct (Qle_bool _ _); cbn [mbind Result_bind]; rewrite IH; [|done].
  by rewrite <-(assoc_L (++)).
Qed.

(** C8. [_find_similar_names] answers exactly the candidates whose
    similarity to the unknown name, both lower-cased, reaches the
    threshold, in the order of the pool; with the default threshold 0.6,
    the unknown name Studnet and the pool Student, Teacher it answers
    Student. *)
Theorem C8_suggest_keeps_similar_candidates_in_order
    (name : string) (pool : list string) (threshold : Q) :
  _find_similar_names name pool threshold
  = Ok (List.filter
          (λ n, Qle_bool threshold
                  (similarity (chars (lower name)) (chars (lower n)))) pool)
  ∧ _find_similar_names "Studnet" ["Student"; "Teacher"] default_threshold
    = Ok ["Student"].
Proof.
  split.
  - unfold _find_similar_names. by rewrite find_similar_names_loop.
  - vm_compute. reflexivity.
Qed.

(** ** Blank input *)




(** ** Running methods *)

Lemma bind_run {X Y : Type} (m : M X) (f : X → M Y) (st : State) :
  (m ≫= f) st
  = match m st with
    | (Ok x, st') => f x st'
    | (Raise e, st') => (Raise e, st')
    end.
Proof. reflexivity. Qed.

Lemma connect_db_run env st :
  ∃ st', _connect_db env st = (Ok (db_connect env (connects st)), st') ∧
    connects st' = S (connects st) ∧
    tables st' = tables st ∧ columns st' = columns st ∧
    conn st' = db_connect env (connects st) ∧
    events st `prefix_of` events st' ∧
    EvConnect (db_connect env (connects st)) ∈ events st'.
Proof.
  destruct st as [c t cl k ev]. unfold _connect_db.
  destruct c; eexists; (split; [reflexivity|]); simpl;
    repeat split; try done.
  - rewrite <-(assoc_L (++)). by apply prefix_app_r.
  - set_solver.
  - by apply prefix_app_r.
  - set_solver.
Qed.

Lemma close_run st :
  ∃ st', close st = (Ok tt, st') ∧ connects st' = connects st ∧
    tables st' = tables st ∧ columns st' = columns st ∧
    events st `prefix_of` events st'.
Proof.
  destruct st as [c t cl k ev]. unfold close.
  destruct c; eexists; (split; [reflexivity|]); simpl; repeat split; try done.
  by apply prefix_app_r.
Qed.

Section sqlite_only_facts.
Context {X Y : Type}.

Lemma sqlite_only_ret (x : X) : sqlite_only (mret x : M X).
Proof. intros st. by exists (Ok x), st. Qed.

Lemma sqlite_only_bind (m : M X) (f : X → M Y) :
  sqlite_only m → (∀ x, sqlite_only (f x)) → sqlite_only (m ≫= f).
Proof.
  intros Hm Hf st. rewrite bind_run.
  destruct (Hm st) as (r & st1 & -> & Hk & Hev & Hr).
  destruct r as [x|e].
  - destruct (Hf x st1) as (r' & st2 & -> & Hk' & Hev' & Hr').
    exists r', st2. repeat split; [congruence | by etrans | done].
  - by exists (Raise e), st1.
Qed.

Lemma sqlite_only_db_query ev (answer : DbAnswer X) :
  sqlite_only (db_query ev answer).
Proof.
  intros [c t cl k evs]. unfold db_query. rewrite bind_run. simpl.
  destruct answer as [rows|msg]; eexists _, _;
    (split; [reflexivity|]); simpl; repeat split; by try apply prefix_app_r.
Qed.
End sqlite_only_facts.

Lemma sqlite_only_get_state : sqlite_only get_state.
Proof. intros st. by exists (Ok st), st. Qed.

Lemma sqlite_only_set_catalog t c : sqlite_only (set_catalog t c).
Proof. intros st. eexists _, _. by split; [reflexivity|]. Qed.

Lemma sqlite_only_close : sqlite_only close.
Proof.
  intros st. destruct (close_run st) as (st' & -> & ? & _ & _ & ?).
  by exists (Ok tt), st'.
Qed.

Lemma sqlite_only_for_each {X : Type} (xs : list X) (body : X → M unit) :
  (∀ x, sqlite_only (body x)) → sqlite_only (for_each xs body).
Proof.
  intros Hbody. induction xs as [|x xs IH]; simpl.
  - apply sqlite_only_ret.
  - apply sqlite_only_bind; [apply Hbody | by intros _].
Qed.

Lemma sqlite_only_load_column table_name col_info :
  sqlite_only (load_column table_name col_info).
Proof.
  unfold load_column. apply sqlite_only_bind; [apply sqlite_only_get_state|].
  intros st. apply sqlite_only_set_catalog.
Qed.

Lemma sqlite_only_load_table env table_name :
  sqlite_only (load_table env table_name).
Proof.
  unfold load_table. apply sqlite_only_bind; [apply sqlite_only_get_state|].
  intros st. apply sqlite_only_bind; [apply sqlite_only_set_catalog|].
  intros _. apply sqlite_only_bind; [apply sqlite_only_db_query|].
  intros cols. apply sqlite_only_for_each, sqlite_only_load_column.
Qed.

(** The refresh always returns: an [sqlite3.Error] inside is caught.  It
    makes one connection attempt. *)
Lemma load_schema_run env st :
  ∃ b st', _load_schema env st = (Ok b, st') ∧
    connects st' = S (connects st) ∧
    events st `prefix_of` events st'.
Proof.
  unfold _load_schema. rewrite bind_run.
  destruct (connect_db_run env st) as (st1 & -> & Hk1 & _ & _ & _ & Hev1 & _).
  destruct (db_connect env (connects st)); simpl.
  2:{ by exists false, st1. }
  unfold try_sqlite.
  assert (sqlite_only
    (table_names ← db_query EvTableNames (db_table_names env);
     _ ← set_catalog ∅ ∅;
     _ ← for_each table_names (load_table env);
     _ ← close;
     mret true)) as Hbody.
  { apply sqlite_only_bind; [apply sqlite_only_db_query|]. intros names.
    apply sqlite_only_bind; [apply sqlite_only_set_catalog|]. intros _.
    apply sqlite_only_bind.
    { apply sqlite_only_for_each, sqlite_only_load_table. }
    intros _. apply sqlite_only_bind; [apply sqlite_only_close|].
    intros _. apply sqlite_only_ret. }
  destruct (Hbody st1) as (r & st2 & -> & Hk2 & Hev2 & Hr).
  destruct r as [b|[msg| | |]]; try done.
  - exists b, st2. repeat split; [congruence | by etrans].
  - rewrite bind_run.
    destruct (close_run st2) as (st3 & -> & Hk3 & _ & _ & Hev3).
    exists false, st3. repeat split; [congruence | by do 2 etrans].
Qed.

(** ** The validator *)

(** The first three steps of [validate] when both of its connections
    succeed: connect, refresh the catalog, connect again. *)
Ltac validate_prefix env st Hc1 Hc2 st3 Hin :=
  let st1 := fresh "st1" in
  let st2 := fresh "st2" in
  let b := fresh "b" in
  let Hk1 := fresh "Hk1" in
  let Hk2 := fresh "Hk2" in
  let Hk3 := fresh "Hk3" in
  let Hev2 := fresh "Hev2" in
  let Hev3 := fresh "Hev3" in
  unfold validate; rewrite bind_run;
  destruct (connect_db_run env st) as (st1 & -> & Hk1 & _ & _ & _ & _ & Hin);
  rewrite Hc1 in Hin |- *; cbn [negb]; rewrite bind_run;
  destruct (load_schema_run env st1) as (b & st2 & -> & Hk2 & Hev2);
  rewrite bind_run;
  destruct (connect_db_run env st2) as (st3 & -> & Hk3 & _ & _ & _ & Hev3 & _);
  replace (connects st2) with (connects st + 2) by lia;
  rewrite Hc2; cbn [negb];
  assert (EvConnect true ∈ events st3) as Hin'
    by (destruct Hev3 as [? ->]; destruct Hev2 as [? ->]; set_solver);
  clear Hin; rename Hin' into Hin.

Lemma validate_at_probe env st sql_query parsed refs :
  reaches_probe env st sql_query parsed refs →
  ∃ st3,
    validate env sql_query st
    = try_sqlite
        (_ ← db_query (EvExplain (token_value parsed))
               (db_explain env (token_value parsed));
         _ ← close;
         mret (true, None, None))
        (λ error_msg,
           _ ← close;
           mret (false, Some error_msg,
                 Some (_generate_suggestions_for_error error_msg refs [])))
        st3.
Proof.
  intros (Hc1 & Hc2 & Hblank & Hsyntax & Hparse & Hrefs).
  validate_prefix env st Hc1 Hc2 st3 Hin.
  rewrite bool_decide_eq_false_2 by done.
  rewrite Hsyntax, Hparse. cbn [negb length].
  rewrite bool_decide_eq_false_2 by lia.
  rewrite bind_run. unfold lift at 1. rewrite Hrefs.
  rewrite bind_run. unfold get_state at 1.
  by exists st3.
Qed.




Lemma validate_rejected env st sql_query parsed refs msg :
  reaches_probe env st sql_query parsed refs →
  db_explain env (token_value parsed) = DbError msg →
  (validate env sql_query st).1
  = Ok (false, Some msg, Some (_generate_suggestions_for_error msg refs [])).
Proof.
  intros Hreach Hexplain.
  destruct (validate_at_probe _ _ _ _ _ Hreach) as (st3 & ->).
  unfold try_sqlite. rewrite bind_run. unfold db_query at 1.
  rewrite bind_run. unfold record at 1. rewrite Hexplain.
  unfold lift. rewrite bind_run.
  match goal with |- context [close ?s] =>
    destruct (close_run s) as (st4 & -> & _) end.
  reflexivity.
Qed.

Lemma generate_suggestions_nonempty msg tables cols :
  _generate_suggestions_for_error msg tables cols ≠ [].
Proof.
  unfold _generate_suggestions_for_error.
  repeat (destruct (contains _ (lower msg))); done.
Qed.

Lemma demo_reaches_probe_misspelt :
  reaches_probe demo_env init_state "SELECT * FROM Studnet"
    (select_star_from [ident "Studnet"]) [Some "Studnet"].
Proof.
  unfold reaches_probe. split; [reflexivity|]. split; [reflexivity|].
  split; [vm_compute; discriminate|]. by vm_compute.
Defined.

Lemma demo_reaches_probe_locked :
  reaches_probe demo_env init_state "SELECT * FROM t"
    (select_star_from [ident "t"]) [Some "t"].
Proof.
  unfold reaches_probe. split; [reflexivity|]. split; [reflexivity|].
  split; [vm_compute; discriminate|]. by vm_compute.
Defined.

(** C4, as the code has it.  When the explain-plan probe fails, [validate]
    returns the engine's message verbatim, and the suggestions are those
    of the taxonomy alone: they are chosen by substring match on the
    lower-cased message and do not depend on the tables extracted from
    the statement, on the catalog, or on any similar name. *)
Theorem C4_rejected_statement_gets_taxonomy_suggestions
    env st sql_query parsed refs msg :
  reaches_probe env st sql_query parsed refs →
  db_explain env (token_value parsed) = DbError msg →
  (validate env sql_query st).1
  = Ok (false, Some msg, Some (_generate_suggestions_for_error msg refs []))
  ∧ ∀ tables cols,
      _generate_suggestions_for_error msg tables cols
      = _generate_suggestions_for_error msg [] [].
Proof.
  intros Hreach Hexplain. split; [by eapply validate_rejected | done].
Qed.

Lemma C4_witness :
  (validate demo_env "SELECT * FROM Studnet" init_state).1
  = Ok (false, Some "no such table: Studnet",
        Some (_generate_suggestions_for_error "no such table: Studnet"
                [Some "Studnet"] [])).
Proof.
  apply (C4_rejected_statement_gets_taxonomy_suggestions demo_env init_state
           "SELECT * FROM Studnet" (select_star_from [ident "Studnet"])
           [Some "Studnet"] "no such table: Studnet").
  - exact demo_reaches_probe_misspelt.
  - reflexivity.
Defined.

(** C4, as stated, fails.  The statement names the table Studnet, which
    is not in the catalog; the engine rejects it; the fuzzy engine seeded
    with that name and the catalog's tables proposes Student; yet the
    suggestions returned are the two fixed sentences of the missing-table
    category, and Student is not among them. *)
Lemma C4_counterexample_no_fuzzy_suggestion :
  let run := validate demo_env "SELECT * FROM Studnet" init_state in
  let suggestions := ["检查表名是否正确拼写"; "确保表已经创建"] in
  run.1 = Ok (false, Some "no such table: Studnet", Some suggestions) ∧
  _extract_tables (select_star_from [ident "Studnet"]) = Ok [Some "Studnet"] ∧
  filter (λ t, table_unknown (tables run.2) t = true) [Some "Studnet"]
    = [Some "Studnet"] ∧
  dom (tables run.2) = {[ "Student"; "Teacher" ]} ∧
  _find_similar_names "Studnet" ["Student"; "Teacher"] default_threshold
    = Ok ["Student"] ∧
  "Student" ∉ suggestions.
Proof.
  cbv zeta. split; [by vm_compute|]. split; [by vm_compute|].
  split; [by vm_compute|]. split; [by vm_compute|].
  split; [by vm_compute|].
  intros Hin. repeat (apply elem_of_cons in Hin as [Hin|Hin]; [discriminate|]).
  by apply elem_of_nil in Hin.
Qed.

(** C10. The suggestion generator never answers an empty list: when none
    of the five categories matches the lower-cased message it answers the
    fixed generic list; so the outcome of a failed explain-plan probe
    carries at least one suggestion. *)
Theorem C10_rejection_always_carries_a_suggestion :
  (∀ msg tables cols, _generate_suggestions_for_error msg tables cols ≠ []) ∧
  (∀ msg tables cols,
     contains "no such table" (lower msg) = false →
     contains "no such column" (lower msg) = false →
     contains "syntax error" (lower msg) = false →
     contains "ambiguous" (lower msg) = false →
     contains "constraint" (lower msg) = false →
     _generate_suggestions_for_error msg tables cols = fallback_suggestions) ∧
  (∀ env st sql_query parsed refs msg,
     reaches_probe env st sql_query parsed refs →
     db_explain env (token_value parsed) = DbError msg →
     ∃ suggestions,
       (validate env sql_query st).1 = Ok (false, Some msg, Some suggestions) ∧
       suggestions ≠ []).
Proof.
  split; [apply generate_suggestions_nonempty|]. split.
  - intros msg tbls cols H1 H2 H3 H4 H5.
    unfold _generate_suggestions_for_error. by rewrite H1, H2, H3, H4, H5.
  - intros env st sql_query parsed refs msg Hreach Hexplain.
    eexists. split; [by eapply validate_rejected|].
    apply generate_suggestions_nonempty.
Qed.

Lemma C10_witness :
  (_generate_suggestions_for_error "database is locked" [Some "t"] []
   = fallback_suggestions) ∧
  ∃ suggestions,
    (validate demo_env "SELECT * FROM t" init_state).1
    = Ok (false, Some "database is locked", Some suggestions) ∧
    suggestions ≠ [].
Proof.
  destruct C10_rejection_always_carries_a_suggestion as (_ & Hfallback & Hrun).
  split.
  - apply Hfallback; reflexivity.
  - apply (Hrun demo_env init_state "SELECT * FROM t"
             (select_star_from [ident "t"]) [Some "t"] "database is locked").
    + exact demo_reaches_probe_locked.
    + reflexivity.
Defined.







(** ** Catalog refresh *)

(** C5, as the code has it.  When the refresh fails before the rebuild
    starts, because the connection cannot be made or because the table
    list cannot be read, it returns [False] and both dictionaries of the
    catalog are what they were. *)
Theorem C5_refresh_failing_before_rebuild_keeps_catalog env st :
  db_connect env (connects st) = false ∨
  (∃ msg, db_table_names env = DbError msg) →
  ∃ st',
    _load_schema env st = (Ok false, st') ∧
    tables st' = tables st ∧ columns st' = columns st.
Proof.
  intros Hfail. unfold _load_schema. rewrite bind_run.
  destruct (connect_db_run env st) as (st1 & -> & _ & Ht & Hc & _).
  destruct (db_connect env (connects st)) eqn:Hconn; cbn [negb].
  2:{ by exists st1. }
  destruct Hfail as [?|[msg Hnames]]; [done|].
  unfold try_sqlite. rewrite bind_run. unfold db_query at 1.
  rewrite bind_run. unfold record at 1. rewrite Hnames.
  unfold lift. rewrite bind_run.
  match goal with |- context [close ?s] =>
    destruct (close_run s) as (st2 & -> & _ & Ht2 & Hc2 & _) end.
  exists st2. split; [reflexivity|]. simpl in Ht2, Hc2. split; congruence.
Qed.

Lemma C5_witness :
  ∃ st',
    _load_schema unreachable_env stale_state = (Ok false, st') ∧
    tables st' = tables stale_state ∧ columns st' = columns stale_state.
Proof.
  apply (C5_refresh_failing_before_rebuild_keeps_catalog
           unreachable_env stale_state).
  left. reflexivity.
Defined.

(** C5, as stated, fails.  The catalog holds the table Course; the refresh
    reads the table list, clears both dictionaries, loads Student, and the
    column query for Teacher fails.  The refresh returns [False], and the
    catalog is neither the old one (Course is gone) nor a complete new one
    (Teacher has no column). *)
Lemma C5_counterexample_partial_overwrite :
  let run := _load_schema flaky_env stale_state in
  run.1 = Ok false ∧
  tables stale_state = {[ "Course" := ["Cno"; "Cname"] ]} ∧
  tables run.2 = {[ "Student" := ["Sno"; "Sname"; "Sage"]; "Teacher" := [] ]} ∧
  tables run.2 ≠ tables stale_state.
Proof.
  cbv zeta. split; [by vm_compute|]. split; [reflexivity|].
  split; [by vm_compute|].
  intros Heq. apply (f_equal (λ m : gmap string (list string), m !! "Course")) in Heq.
  vm_compute in Heq. discriminate.
Qed.

(** ** Reference extractor *)

(** Induction on token trees, with the children of a group covered. *)
Lemma Token_tree_ind (P : Token → Prop) :
  (∀ ty v, P (Leaf ty v)) →
  (∀ cls rn ts, Forall P ts → P (Group cls rn ts)) →
  ∀ t, P t.
Proof.
  intros Hleaf Hgroup. fix IH 1. intros [ty v|cls rn ts]; [apply Hleaf|].
  apply Hgroup. induction ts as [|t ts IHts]; constructor; [apply IH | exact IHts].
Qed.

Lemma flatten_leaves t : Forall is_leaf (flatten t).
Proof.
  induction t as [ty v|cls rn ts IH] using Token_tree_ind.
  - repeat constructor. by exists ty, v.
  - cbn [flatten]. induction IH as [|t ts Ht _ IHts]; [constructor|].
    by apply Forall_app.
Qed.

(** The first loop of [_extract_tables] only meets leaves: it appends
    nothing and raises nothing. *)
Lemma flat_pass_on_leaves ls seen :
  Forall is_leaf ls →
  ∃ seen', for_loop ls (seen, []) flat_pass_body = Ok (seen', []).
Proof.
  intros Hls. revert seen.
  induction Hls as [|t ls (ty & v & ->) _ IH]; intros seen; simpl.
  { by eexists. }
  unfold flat_pass_body at 1. destruct (keyword_in _ _).
  { cbn [mbind Result_bind]. apply IH. }
  cbn [isinstance]. rewrite !andb_false_r. cbn [mbind Result_bind].
  destruct (_ && _); cbn [mbind Result_bind]; apply IH.
Qed.

Lemma extract_tables_first_loop parsed :
  ∃ seen, for_loop (flatten parsed) (false, []) flat_pass_body = Ok (seen, []).
Proof. apply flat_pass_on_leaves, flatten_leaves. Qed.

Lemma extract_tables_is_a_set parsed refs :
  _extract_tables parsed = Ok refs → ∃ found, refs = list_of_set found.
Proof.
  intros H. destruct parsed as [ty v|cls rn ts]; cbn [_extract_tables] in H;
    unfold mbind, Result_bind in H;
    repeat match type of H with
           | match ?x with _ => _ end = _ => destruct x as [?|?]; try discriminate
           end.
  injection H as <-. by eexists.
Qed.

(** C9. For [SELECT * FROM A JOIN B ON A.id = B.id] the extractor answers
    the tables A and B, each once and nothing else; whenever the extractor
    answers, no table name occurs twice in its answer, and for the
    self-join [SELECT * FROM Student s1 JOIN Student s2 ON s1.Sno = s2.Sno]
    the answer is Student alone. *)
Theorem C9_extractor_answers_a_set_of_tables :
  (∃ refs, _extract_tables stmt_join = Ok refs ∧
           refs ≡ₚ [Some "A"; Some "B"]) ∧
  _extract_tables stmt_self_join = Ok [Some "Student"] ∧
  (∀ parsed refs, _extract_tables parsed = Ok refs → NoDup refs).
Proof.
  split; [|split].
  - eexists. split; [by vm_compute|]. apply perm_swap.
  - by vm_compute.
  - intros parsed refs H.
    apply extract_tables_is_a_set in H as [found ->].
    unfold list_of_set. apply NoDup_elements.
Qed.

Lemma C9_witness :
  _extract_tables stmt_self_join = Ok [Some "Student"] ∧
  NoDup [Some "Student"].
Proof.
  destruct C9_extractor_answers_a_set_of_tables as (_ & Hself & Hnodup).
  split; [exact Hself|].
  exact (Hnodup stmt_self_join [Some "Student"] Hself).
Defined.

(** ** Plan builder fallback *)

(** The fallback never answers an empty plan. *)
Lemma parse_sql_manually_nonempty env sql_query plan :
  _parse_sql_manually env sql_query = Ok plan → plan ≠ [].
Proof.
  unfold _parse_sql_manually.
  destruct (py_index _ 0) as [parsed|]; [|discriminate]. cbn [mbind Result_bind].
  destruct (token_tokens parsed) as [tokens|]; [|discriminate].
  cbn [mbind Result_bind].
  destruct (fold_left plan_body tokens ([], false, false, []))
    as [[[built ?] ?] ?].
  case_bool_decide as Hbuilt; intros [= <-]; done.
Qed.

(** C6 fails on the code.  For [SELECT * FROM t] the token SELECT has the
    type [Keyword.DML], which the loop does not take for a keyword, so no
    root is made; the table node comes first, with id 0 and the fixed
    parent 0.  The plan is not empty, but its only node is not a root and
    names itself as parent. *)
Theorem C6_fallback_plan_names_itself_as_parent :
  sql_parse demo_env "SELECT * FROM t" = [select_star_from [ident "t"]] ∧
  _parse_sql_manually demo_env "SELECT * FROM t"
    = Ok [mkPlanNode 0 0 "SCAN TABLE t"] ∧
  ¬ parent_introduced_earlier [mkPlanNode 0 0 "SCAN TABLE t"].
Proof.
  split; [reflexivity|]. split; [by vm_compute|].
  intros Hplan.
  destruct (Hplan 0 (mkPlanNode 0 0 "SCAN TABLE t") eq_refl)
    as (j & earlier & Hj & _); [discriminate | lia].
Qed.

(** * Further properties *)

(** ** The edit distance is a metric *)

Section edit_distance_metric.
Context {A : Type} `{EqDecision A}.
Implicit Types (s t u : list A).

Lemma edits_trans n m s t u : edits n s t → edits m t u → edits (n + m) s u.
Proof.
  induction 1 as [a|n a b c Hab _ IH]; intros Htu; [done|].
  simpl. eapply edits_step; [done | by apply IH].
Qed.

Lemma edits_zero s t : edits 0 s t → s = t.
Proof. by inversion 1. Qed.

Lemma edit1_length s t :
  edit1 s t → length s ≤ S (length t) ∧ length t ≤ S (length s).
Proof. destruct 1; rewrite !length_app; simpl; lia. Qed.

Lemma edits_length n s t :
  edits n s t → length s ≤ n + length t ∧ length t ≤ n + length s.
Proof.
  induction 1 as [a|n a b c Hab _ IH]; [lia|].
  apply edit1_length in Hab. lia.
Qed.

Lemma lev_rec_triangle s t u : lev_rec s u ≤ lev_rec s t + lev_rec t u.
Proof.
  apply edits_lower_bound.
  apply edits_trans with t; apply lev_rec_min_edits.
Qed.

Lemma lev_rec_zero s t : lev_rec s t = 0 ↔ s = t.
Proof.
  split.
  - intros H0. apply edits_zero. rewrite <-H0. apply lev_rec_min_edits.
  - intros ->. apply lev_rec_refl.
Qed.

Lemma lev_rec_length_gap s t :
  length s `max` length t - length s `min` length t ≤ lev_rec s t.
Proof.
  destruct (edits_length _ _ _ (proj1 (lev_rec_min_edits s t))). lia.
Qed.

(** The distance does not depend on the order of its arguments. *)
Theorem levenshtein_distance_symmetric s t :
  _levenshtein_distance s t = _levenshtein_distance t s.
Proof. by rewrite !levenshtein_distance_eq, lev_rec_sym. Qed.

(** The distance is zero exactly between equal strings. *)
Theorem levenshtein_distance_zero_iff_equal s t :
  _levenshtein_distance s t = Ok 0 ↔ s = t.
Proof.
  rewrite levenshtein_distance_eq, <-lev_rec_zero.
  split; [by intros [= ->] | by intros ->].
Qed.

(** Going through a third string is never shorter. *)
Theorem levenshtein_distance_triangle s t u :
  ∃ dst dtu dsu,
    _levenshtein_distance s t = Ok dst ∧
    _levenshtein_distance t u = Ok dtu ∧
    _levenshtein_distance s u = Ok dsu ∧
    dsu ≤ dst + dtu.
Proof.
  exists (lev_rec s t), (lev_rec t u), (lev_rec s u).
  rewrite !levenshtein_distance_eq. repeat split. apply lev_rec_triangle.
Qed.

(** The distance lies between the difference of the lengths and the
    longer length. *)
Theorem levenshtein_distance_bounds s t :
  ∃ d,
    _levenshtein_distance s t = Ok d ∧
    length s `max` length t - length s `min` length t ≤ d ∧
    d ≤ length s `max` length t.
Proof.
  exists (lev_rec s t). rewrite levenshtein_distance_eq.
  split; [done|]. split; [apply lev_rec_length_gap | apply lev_rec_le_max].
Qed.
End edit_distance_metric.

(** ** More on similarity and suggestions *)

Section similarity_more.
Context {A : Type} `{EqDecision A}.
Implicit Types a b : list A.

Lemma similarity_sym a b : similarity a b = similarity b a.
Proof.
  unfold similarity.
  destruct (decide (a = [] ∨ b = [])) as [Hab|Hab];
    destruct (decide (b = [] ∨ a = [])) as [Hba|Hba]; try tauto.
  by rewrite lev_rec_sym, Nat.max_comm.
Qed.

Lemma similarity_one_iff a b : (similarity a b == 1)%Q ↔ a = b ∧ a ≠ [].
Proof.
  split.
  - unfold similarity. case_decide as Hne; [intros Heq; discriminate Heq|].
    intros Hone.
    assert (0 < length a `max` length b) as Hpos.
    { destruct a; [exfalso; apply Hne; auto | simpl; lia]. }
    assert (0 < inject_Z (Z.of_nat (length a `max` length b)))%Q as Hm.
    { change 0%Q with (inject_Z 0). rewrite <-Zlt_Qlt. lia. }
    assert (inject_Z (Z.of_nat (lev_rec a b)) == 0)%Q as Hd.
    { assert (inject_Z (Z.of_nat (lev_rec a b))
              / inject_Z (Z.of_nat (length a `max` length b)) == 0)%Q as Hq by lra.
      apply (Qmult_inj_r _ _ (/ inject_Z (Z.of_nat (length a `max` length b)))).
      - intros Hinv. apply (Qlt_irrefl 0).
        rewrite <-Hinv at 2. by apply Qinv_lt_0_compat.
      - rewrite Qmult_0_l. exact Hq. }
    change 0%Q with (inject_Z 0) in Hd. rewrite inject_Z_injective in Hd.
    assert (lev_rec a b = 0) as H0 by lia. apply lev_rec_zero in H0 as ->.
    split; [done|]. intros ->. apply Hne. auto.
  - intros [<- Hne]. by apply similarity_same.
Qed.

(** The similarity does not depend on the order of its arguments. *)
Theorem calculate_similarity_symmetric a b :
  _calculate_similarity a b = _calculate_similarity b a.
Proof. by rewrite !calculate_similarity_eq, similarity_sym. Qed.

(** The similarity is 1 exactly for two equal, non-empty strings. *)
Theorem calculate_similarity_one_iff_equal a b :
  ∃ sim, _calculate_similarity a b = Ok sim ∧
         ((sim == 1)%Q ↔ a = b ∧ a ≠ []).
Proof.
  exists (similarity a b). split; [apply calculate_similarity_eq|].
  apply similarity_one_iff.
Qed.
End similarity_more.



Lemma filter_sublist {X : Type} (f : X → bool) (l : list X) :
  List.filter f l `sublist_of` l.
Proof.
  induction l as [|x l IH]; simpl; [constructor|].
  destruct (f x); by constructor.
Qed.

Lemma filter_weaker_sublist {X : Type} (f g : X → bool) (l : list X) :
  (∀ x, f x = true → g x = true) →
  List.filter f l `sublist_of` List.filter g l.
Proof.
  intros Hfg. induction l as [|x l IH]; simpl; [constructor|].
  destruct (f x) eqn:Hf.
  - rewrite (Hfg _ Hf). by constructor.
  - destruct (g x); [by constructor | done].
Qed.

Lemma find_similar_names_eq name pool threshold :
  _find_similar_names name pool threshold
  = Ok (List.filter
          (λ n, Qle_bool threshold
                  (similarity (chars (lower name)) (chars (lower n)))) pool).
Proof. unfold _find_similar_names. by rewrite find_similar_names_loop. Qed.

(** [_find_similar_names] always returns, and what it returns is the pool
    with some candidates left out: nothing is added, repeated or
    reordered. *)
Theorem find_similar_names_sublist name pool threshold :
  ∃ found, _find_similar_names name pool threshold = Ok found ∧
           found `sublist_of` pool.
Proof.
  eexists. split; [apply find_similar_names_eq | apply filter_sublist].
Qed.


(** A higher threshold keeps fewer candidates. *)
Theorem find_similar_names_threshold name pool (t1 t2 : Q) :
  (t1 <= t2)%Q →
  ∃ found1 found2,
    _find_similar_names name pool t1 = Ok found1 ∧
    _find_similar_names name pool t2 = Ok found2 ∧
    found2 `sublist_of` found1.
Proof.
  intros Hle. eexists _, _.
  split; [apply find_similar_names_eq|]. split; [apply find_similar_names_eq|].
  apply filter_weaker_sublist. intros n. rewrite !Qle_bool_iff. lra.
Qed.

Lemma find_similar_names_threshold_witness :
  ∃ found1 found2,
    _find_similar_names "Studnet" ["Student"; "Teacher"] (1 # 10) = Ok found1 ∧
    _find_similar_names "Studnet" ["Student"; "Teacher"] (6 # 10) = Ok found2 ∧
    found2 `sublist_of` found1.
Proof.
  apply (find_similar_names_threshold "Studnet" ["Student"; "Teacher"]
           (1 # 10) (6 # 10)).
  vm_compute. discriminate.
Defined.

(** A candidate that is the unknown name up to case is suggested, for
    every threshold up to 1, provided the name is not empty. *)
Theorem find_similar_names_finds_same_name name pool threshold n :
  n ∈ pool → lower n = lower name → name ≠ "" → (threshold <= 1)%Q →
  ∃ found, _find_similar_names name pool threshold = Ok found ∧ n ∈ found.
Proof.
  intros Hin Hsame Hne Hle. eexists. split; [apply find_similar_names_eq|].
  apply list_elem_of_In, filter_In. split; [by apply list_elem_of_In|].
  rewrite Hsame. apply Qle_bool_iff.
  assert (similarity (chars (lower name)) (chars (lower name)) == 1)%Q as ->.
  { apply similarity_same. destruct name; [done|]. discriminate. }
  exact Hle.
Qed.

Lemma find_similar_names_finds_same_name_witness :
  ∃ found,
    _find_similar_names "STUDENT" ["Teacher"; "Student"] default_threshold
      = Ok found ∧
    "Student" ∈ found.
Proof.
  apply (find_similar_names_finds_same_name "STUDENT" ["Teacher"; "Student"]
           default_threshold "Student").
  - do 2 constructor.
  - reflexivity.
  - discriminate.
  - vm_compute. discriminate.
Defined.

(** ** More on the reference extractor *)

Lemma extract_tables_unfold cls rn ts :
  _extract_tables (Group cls rn ts)
  = (_ ← for_loop (flatten (Group cls rn ts)) (false, []) flat_pass_body;
     tables_found ← extract_loop _extract_tables ts false [];
     Ok (list_of_set tables_found)).
Proof.
  cbn [_extract_tables].
  destruct (for_loop _ _ _) as [?|?]; [|done]. cbn [mbind Result_bind].
  f_equal.
  match goal with
  | |- ?loop ts false [] = _ =>
      assert (∀ seen found,
                loop ts seen found = extract_loop _extract_tables ts seen found)
        as Hloop; [|apply Hloop]
  end.
  induction ts as [|t ts IH]; intros seen found; [done|].
  cbn [extract_loop]. unfold mbind, Result_bind.
  match goal with |- match ?x with _ => _ end = _ => destruct x as [[? ?]|?] end;
    [|done].
  match goal with |- match ?x with _ => _ end = _ => destruct x as [?|?] end;
    [|done].
  apply IH.
Qed.

Lemma append_identifier_names_raise found items e :
  append_identifier_names found items = Raise e → e = AttributeError.
Proof.
  unfold append_identifier_names. generalize (get_identifiers items).
  intros ids. revert found. induction ids as [|t ids IH]; intros found; [done|].
  simpl. destruct t as [ty v|cls rn ts]; simpl; [by intros [= <-] | apply IH].
Qed.

Lemma extract_loop_raise nested ts seen found e :
  Forall (λ t, ∀ e', nested t = Raise e' → e' = AttributeError) ts →
  extract_loop nested ts seen found = Raise e → e = AttributeError.
Proof.
  intros Hts. revert seen found.
  induction Hts as [|t ts Ht _ IH]; intros seen found; [done|].
  cbn [extract_loop]. unfold mbind, Result_bind.
  destruct (keyword_in t _).
  - destruct t as [ty v|[] rn kids]; try apply IH.
    destruct (nested _) as [?|e'] eqn:Hn; [apply IH|].
    intros [= <-]. by apply Ht.
  - destruct seen.
    + destruct t as [ty v|[] rn kids];
        try (destruct (keyword_not_in _ _); apply IH).
      * destruct (keyword_not_in _ _);
          (destruct (nested _) as [?|e'] eqn:Hn;
             [apply IH | intros [= <-]; by apply Ht]).
      * destruct (append_identifier_names found kids) as [?|e'] eqn:Hids.
        -- destruct (keyword_not_in _ _); apply IH.
        -- intros [= <-]. by apply append_identifier_names_raise in Hids.
    + destruct t as [ty v|[] rn kids]; try apply IH.
      destruct (nested _) as [?|e'] eqn:Hn; [apply IH|].
      intros [= <-]. by apply Ht.
Qed.

Lemma extract_tables_raise_inv parsed e :
  _extract_tables parsed = Raise e → e = AttributeError.
Proof.
  revert e. induction parsed as [ty v|cls rn ts IH] using Token_tree_ind;
    intros e.
  - cbn [_extract_tables].
    destruct (extract_tables_first_loop (Leaf ty v)) as [seen ->].
    by intros [= <-].
  - rewrite extract_tables_unfold.
    destruct (extract_tables_first_loop (Group cls rn ts)) as [seen ->].
    cbn [mbind Result_bind].
    destruct (extract_loop _ _ _ _) as [?|e'] eqn:Hloop; [done|].
    intros [= <-]. by apply extract_loop_raise in Hloop.
Qed.

(** The extractor raises nothing but [AttributeError], and it does raise
    it on a token that is not a group. *)
Theorem extract_tables_raises_only_attribute_error parsed e :
  (_extract_tables parsed = Raise e → e = AttributeError) ∧
  (is_group parsed = false → _extract_tables parsed = Raise AttributeError).
Proof.
  split; [apply extract_tables_raise_inv|].
  destruct parsed as [ty v|cls rn ts]; [intros _|done].
  cbn [_extract_tables].
  by destruct (extract_tables_first_loop (Leaf ty v)) as [seen ->].
Qed.

Lemma extract_tables_raises_only_attribute_error_witness :
  _extract_tables (Leaf Name "t") = Raise AttributeError ∧
  AttributeError = AttributeError.
Proof.
  split; [reflexivity|].
  apply (proj1 (extract_tables_raises_only_attribute_error (Leaf Name "t")
                  AttributeError)).
  reflexivity.
Defined.

Lemma append_identifier_names_ok found items :
  forallb is_group (get_identifiers items) = true →
  ∃ found', append_identifier_names found items = Ok found'.
Proof.
  unfold append_identifier_names. generalize (get_identifiers items).
  intros ids. revert found. induction ids as [|t ids IH]; intros found Hids.
  { by eexists. }
  simpl in Hids. apply andb_prop in Hids as [Ht Hids].
  destruct t as [ty v|cls rn ts]; [done|]. simpl. by apply IH.
Qed.

Lemma extract_loop_ok nested ts seen found :
  Forall (λ t, extractable_token t = true ∧
               (isinstance t Statement = true → ∃ refs, nested t = Ok refs)) ts →
  ∃ found', extract_loop nested ts seen found = Ok found'.
Proof.
  intros Hts. revert seen found.
  induction Hts as [|t ts [Ht Hn] _ IH]; intros seen found.
  { by eexists. }
  cbn [extract_loop]. unfold mbind, Result_bind.
  destruct (keyword_in t _).
  - destruct t as [ty v|[] rn kids]; try apply IH.
    destruct Hn as [refs ->]; [done | apply IH].
  - destruct seen.
    + destruct t as [ty v|[] rn kids];
        try (destruct (keyword_not_in _ _); apply IH).
      * destruct Hn as [refs ->]; [done|].
        destruct (keyword_not_in _ _); apply IH.
      * destruct (append_identifier_names_ok found kids Ht) as [found' ->].
        destruct (keyword_not_in _ _); apply IH.
    + destruct t as [ty v|[] rn kids]; try apply IH.
      destruct Hn as [refs ->]; [done | apply IH].
Qed.

Lemma extractable_group cls rn ts :
  extractable (Group cls rn ts) = forallb extractable_token ts.
Proof.
  cbn [extractable]. induction ts as [|t ts IH]; [done|].
  cbn [forallb]. by rewrite <-IH.
Qed.

(** On a statement whose identifier lists hold groups only (and so for
    the statements nested in it) the extractor returns a list. *)
Theorem extract_tables_returns_on_extractable parsed :
  extractable parsed = true → ∃ refs, _extract_tables parsed = Ok refs.
Proof.
  induction parsed as [ty v|cls rn ts IH] using Token_tree_ind; [done|].
  rewrite extractable_group, forallb_forall. intros Hts.
  rewrite extract_tables_unfold.
  destruct (extract_tables_first_loop (Group cls rn ts)) as [seen ->].
  cbn [mbind Result_bind].
  destruct (extract_loop_ok _extract_tables ts false []) as [found ->];
    [|by eexists].
  rewrite Forall_forall in IH. apply Forall_forall. intros t Hin.
  apply list_elem_of_In in Hin.
  split; [by apply Hts|]. intros Hst. apply (IH t); [by apply list_elem_of_In|].
  specialize (Hts t Hin). by destruct t as [?|[] ? ?].
Qed.

Lemma extract_tables_returns_on_extractable_witness :
  ∃ refs, _extract_tables stmt_self_join = Ok refs.
Proof.
  apply (extract_tables_returns_on_extractable stmt_self_join). reflexivity.
Defined.

Lemma extract_loop_ignores_group_contents nested pre post c r kids kids' seen found :
  c ≠ IdentifierList → c ≠ Statement →
  extract_loop nested (pre ++ Group c r kids :: post) seen found
  = extract_loop nested (pre ++ Group c r kids' :: post) seen found.
Proof.
  intros Hc1 Hc2. revert seen found.
  induction pre as [|t pre IH]; intros seen found.
  - cbn [app extract_loop keyword_in keyword_not_in is_keyword andb].
    by destruct c.
  - cbn [app extract_loop]. unfold mbind, Result_bind.
    match goal with |- match ?x with _ => _ end = _ => destruct x as [[? ?]|?] end;
      [|done].
    match goal with |- match ?x with _ => _ end = _ => destruct x as [?|?] end;
      [|done].
    apply IH.
Qed.

(** What lies inside a group of the statement that is neither an
    identifier list nor a nested statement (a parenthesis, a WHERE clause,
    a comparison, a function call) has no influence on the tables
    extracted: a sub-query in parentheses is not looked into. *)
Theorem extract_tables_ignores_group_contents
    cls rn pre post c r kids kids' :
  c ≠ IdentifierList → c ≠ Statement →
  _extract_tables (Group cls rn (pre ++ Group c r kids :: post))
  = _extract_tables (Group cls rn (pre ++ Group c r kids' :: post)).
Proof.
  intros Hc1 Hc2. rewrite !extract_tables_unfold.
  destruct (extract_tables_first_loop
              (Group cls rn (pre ++ Group c r kids :: post))) as [seen ->].
  destruct (extract_tables_first_loop
              (Group cls rn (pre ++ Group c r kids' :: post))) as [seen' ->].
  cbn [mbind Result_bind].
  by rewrite (extract_loop_ignores_group_contents _ _ _ _ _ kids kids').
Qed.

(** [SELECT * FROM t WHERE x IN (SELECT y FROM u)] against the same
    statement with an empty parenthesis. *)
Lemma extract_tables_ignores_group_contents_witness :
  _extract_tables
    (Group Statement None
       ([Leaf Keyword_DML "SELECT"; ws; Leaf Wildcard "*"; ws;
         Leaf Keyword "FROM"; ws; ident "t"; ws]
        ++ Group Where None
             [Leaf Keyword "WHERE"; ws; ident "x"; ws; Leaf Keyword "IN"; ws;
              Group Parenthesis None
                [Leaf Punctuation "("; Leaf Keyword_DML "SELECT"; ws;
                 ident "y"; ws; Leaf Keyword "FROM"; ws; ident "u";
                 Leaf Punctuation ")"]]
        :: []))
  = _extract_tables
      (Group Statement None
         ([Leaf Keyword_DML "SELECT"; ws; Leaf Wildcard "*"; ws;
           Leaf Keyword "FROM"; ws; ident "t"; ws]
          ++ Group Where None [] :: [])).
Proof.
  apply extract_tables_ignores_group_contents; discriminate.
Defined.

(** ** More on the validator *)

Lemma close_run_conn st : ∃ st', close st = (Ok tt, st') ∧ conn st' = false.
Proof.
  destruct st as [c t cl k ev]. unfold close.
  destruct c eqn:Hc; eexists; (split; [reflexivity|]); done.
Qed.

(** Every way [validate] can end. *)
Lemma validate_run env sql_query st :
  ∃ st',
    (validate env sql_query st
       = (Ok (false, Some msg_connection_failed, Some []), st') ∧
     conn st' = false ∧
     (db_connect env (connects st) = false ∨
      db_connect env (connects st + 2) = false)) ∨
    (db_connect env (connects st) = true ∧
     db_connect env (connects st + 2) = true ∧
     ((validate env sql_query st
         = (Ok (false, Some msg_empty_query, Some ["请输入有效的SQL查询。"]), st') ∧
       conn st' = false ∧ strip (chars sql_query) = []) ∨
      (validate env sql_query st
         = (Ok (false, Some msg_syntax_error,
                Some ["检查SQL语法是否正确"; "确保关键字拼写正确"; "检查括号是否匹配"]),
            st') ∧
       conn st' = false ∧ strip (chars sql_query) ≠ [] ∧
       _check_basic_syntax env sql_query = false) ∨
      (validate env sql_query st
         = (Ok (false, Some msg_single_statement,
                Some ["请将查询拆分为多个独立的语句进行验证。"]), st') ∧
       conn st' = false ∧ strip (chars sql_query) ≠ [] ∧
       _check_basic_syntax env sql_query = true ∧
       1 < length (sql_parse env sql_query)) ∨
      (∃ parsed,
         strip (chars sql_query) ≠ [] ∧
         _check_basic_syntax env sql_query = true ∧
         sql_parse env sql_query = [parsed] ∧
         ((∃ e, _extract_tables parsed = Raise e ∧
                validate env sql_query st = (Raise e, st') ∧ conn st' = true) ∨
          (∃ refs, _extract_tables parsed = Ok refs ∧
                   db_explain env (token_value parsed) = DbRows tt ∧
                   validate env sql_query st = (Ok (true, None, None), st') ∧
                   conn st' = false) ∨
          (∃ refs msg, _extract_tables parsed = Ok refs ∧
                       db_explain env (token_value parsed) = DbError msg ∧
                       validate env sql_query st
                         = (Ok (false, Some msg,
                                Some (_generate_suggestions_for_error msg refs [])),
                            st') ∧
                       conn st' = false))))).
Proof.
  remember (validate env sql_query st) as v eqn:Hv.
  unfold validate in Hv. rewrite bind_run in Hv.
  destruct (connect_db_run env st) as (st1 & Hrun1 & Hk1 & _ & _ & Hconn1 & _).
  rewrite Hrun1 in Hv. clear Hrun1.
  destruct (db_connect env (connects st)) eqn:Hc1; cbn [negb] in Hv.
  2:{ exists st1. left. rewrite Hv. auto. }
  rewrite bind_run in Hv.
  destruct (load_schema_run env st1) as (b & st2 & Hrun2 & Hk2 & _).
  rewrite Hrun2, bind_run in Hv. clear Hrun2.
  destruct (connect_db_run env st2) as (st3 & Hrun3 & Hk3 & _ & _ & Hconn3 & _).
  rewrite Hrun3 in Hv. clear Hrun3.
  replace (connects st2) with (connects st + 2) in * by lia.
  destruct (db_connect env (connects st + 2)) eqn:Hc2; cbn [negb] in Hv.
  2:{ exists st3. left. rewrite Hv. auto. }
  destruct (close_run_conn st3) as (st4 & Hclose & Hconn4).
  destruct (decide (strip (chars sql_query) = [])) as [Hblank|Hblank].
  { rewrite bool_decide_eq_true_2, bind_run, Hclose in Hv by done.
    exists st4. right. do 2 (split; [done|]). left. rewrite Hv. auto. }
  rewrite bool_decide_eq_false_2 in Hv by done.
  destruct (_check_basic_syntax env sql_query) eqn:Hsyntax; cbn [negb] in Hv.
  2:{ rewrite bind_run, Hclose in Hv.
      exists st4. right. do 2 (split; [done|]). right. left. rewrite Hv. auto. }
  destruct (sql_parse env sql_query) as [|parsed rest] eqn:Hparse.
  { exfalso. unfold _check_basic_syntax in Hsyntax. rewrite Hparse in Hsyntax.
    by case_bool_decide. }
  destruct (decide (1 < length (parsed :: rest))) as [Hmany|Hmany].
  { rewrite bool_decide_eq_true_2, bind_run, Hclose in Hv by done.
    exists st4. right. do 2 (split; [done|]). right. right. left.
    rewrite Hv. auto. }
  rewrite bool_decide_eq_false_2 in Hv by done.
  assert (rest = []) as -> by (destruct rest; [done | simpl in Hmany; lia]).
  rewrite bind_run in Hv. unfold lift at 1 in Hv.
  destruct (_extract_tables parsed) as [refs|e] eqn:Hrefs.
  2:{ exists st3. right. do 2 (split; [done|]). do 3 right.
      exists parsed. do 3 (split; [done|]). left. exists e. rewrite Hv. auto. }
  rewrite bind_run in Hv. unfold get_state at 1 in Hv.
  unfold try_sqlite in Hv. rewrite bind_run in Hv. unfold db_query at 1 in Hv.
  rewrite bind_run in Hv. unfold record at 1 in Hv.
  destruct (db_explain env (token_value parsed)) as [[]|msg] eqn:Hexplain.
  - cbn [mret M_ret] in Hv. rewrite bind_run in Hv.
    match type of Hv with context [close ?s] =>
      destruct (close_run_conn s) as (st5 & Hclose5 & Hconn5) end.
    rewrite Hclose5 in Hv.
    exists st5. right. do 2 (split; [done|]). do 3 right.
    exists parsed. do 3 (split; [done|]). right. left. exists refs.
    rewrite Hv. auto.
  - unfold lift in Hv. rewrite bind_run in Hv.
    match type of Hv with context [close ?s] =>
      destruct (close_run_conn s) as (st5 & Hclose5 & Hconn5) end.
    rewrite Hclose5 in Hv.
    exists st5. right. do 2 (split; [done|]). do 3 right.
    exists parsed. do 3 (split; [done|]). right. right. exists refs, msg.
    rewrite Hv. auto.
Qed.

(** The outcome of [validate] is either the valid triple, without message
    and suggestions, or an invalid one that has both. *)
Theorem validate_outcome_shape env sql_query st is_valid message suggestions st' :
  validate env sql_query st = (Ok (is_valid, message, suggestions), st') →
  (is_valid = true ∧ message = None ∧ suggestions = None) ∨
  (is_valid = false ∧ is_Some message ∧ is_Some suggestions).
Proof.
  intros Hv. destruct (validate_run env sql_query st) as (st0 & Hcases).
  rewrite Hv in Hcases.
  destruct Hcases as [([= -> -> ->] & _)
    |(_ & _ & [([= -> -> ->] & _)|[([= -> -> ->] & _)|[([= -> -> ->] & _)
    |(parsed & _ & _ & _ & [(e & _ & [=] & _)
        |[(refs & _ & _ & [= -> -> ->] & _)
         |(refs & msg & _ & _ & [= -> -> ->] & _)]])]]])];
    auto.
Qed.

Lemma validate_outcome_shape_witness :
  (true = true ∧ (None : option string) = None
   ∧ (None : option (list string)) = None) ∨
  (true = false ∧ is_Some (None : option string)
   ∧ is_Some (None : option (list string))).
Proof.
  apply (validate_outcome_shape demo_env "SELECT * FROM Student" init_state
           true None None
           (validate demo_env "SELECT * FROM Student" init_state).2).
  vm_compute. reflexivity.
Defined.

(** [validate] says valid only for a text that passed the basic check,
    parsed to a single statement, and was accepted by the engine's
    explain-plan probe. *)
Theorem validate_valid_only_if_accepted env sql_query st message suggestions st' :
  validate env sql_query st = (Ok (true, message, suggestions), st') →
  ∃ parsed,
    sql_parse env sql_query = [parsed] ∧
    db_explain env (token_value parsed) = DbRows tt ∧
    _check_basic_syntax env sql_query = true ∧
    strip (chars sql_query) ≠ [].
Proof.
  intros Hv. destruct (validate_run env sql_query st) as (st0 & Hcases).
  rewrite Hv in Hcases.
  destruct Hcases as [([=] & _)
    |(_ & _ & [([=] & _)|[([=] & _)|[([=] & _)
    |(parsed & ? & ? & ? & [(e & _ & [=] & _)
        |[(refs & _ & ? & _ & _)
         |(refs & msg & _ & _ & [=] & _)]])]]])].
  by exists parsed.
Qed.

Lemma validate_valid_only_if_accepted_witness :
  ∃ parsed,
    sql_parse demo_env "SELECT * FROM Student" = [parsed] ∧
    db_explain demo_env (token_value parsed) = DbRows tt ∧
    _check_basic_syntax demo_env "SELECT * FROM Student" = true ∧
    strip (chars "SELECT * FROM Student") ≠ [].
Proof.
  apply (validate_valid_only_if_accepted demo_env "SELECT * FROM Student"
           init_state None None
           (validate demo_env "SELECT * FROM Student" init_state).2).
  vm_compute. reflexivity.
Defined.

(** The only exception [validate] lets through is the [AttributeError] of
    the reference extractor, on a single parsed statement; the connection
    is then left open. *)
Theorem validate_raises_only_from_extractor env sql_query st e st' :
  validate env sql_query st = (Raise e, st') →
  e = AttributeError ∧ conn st' = true ∧
  ∃ parsed, sql_parse env sql_query = [parsed] ∧
            _extract_tables parsed = Raise AttributeError.
Proof.
  intros Hv. destruct (validate_run env sql_query st) as (st0 & Hcases).
  rewrite Hv in Hcases.
  destruct Hcases as [([=] & _)
    |(_ & _ & [([=] & _)|[([=] & _)|[([=] & _)
    |(parsed & _ & _ & Hparse & [(e' & Hraise & [= -> ->] & Hconn)
        |[(refs & _ & _ & [=] & _)
         |(refs & msg & _ & _ & [=] & _)]])]]])].
  pose proof (extract_tables_raise_inv _ _ Hraise) as ->.
  split; [done|]. split; [done|]. by exists parsed.
Qed.

Lemma validate_raises_only_from_extractor_witness :
  validate keyword_table_env "SELECT * FROM a, user" init_state
    = (Raise AttributeError,
       (validate keyword_table_env "SELECT * FROM a, user" init_state).2) ∧
  conn (validate keyword_table_env "SELECT * FROM a, user" init_state).2 = true.
Proof.
  assert (validate keyword_table_env "SELECT * FROM a, user" init_state
          = (Raise AttributeError,
             (validate keyword_table_env "SELECT * FROM a, user" init_state).2))
    as Hrun by (vm_compute; reflexivity).
  split; [exact Hrun|].
  exact (proj1 (proj2 (validate_raises_only_from_extractor _ _ _ _ _ Hrun))).
Defined.

(** Whenever [validate] returns an outcome, it has closed its connection. *)
Theorem validate_closes_connection env sql_query st outcome st' :
  validate env sql_query st = (Ok outcome, st') → conn st' = false.
Proof.
  intros Hv. destruct (validate_run env sql_query st) as (st0 & Hcases).
  rewrite Hv in Hcases.
  destruct Hcases as [([= _ ->] & ? & _)
    |(_ & _ & [([= _ ->] & ? & _)|[([= _ ->] & ? & _)|[([= _ ->] & ? & _)
    |(parsed & _ & _ & _ & [(e & _ & [=] & _)
        |[(refs & _ & _ & [= _ ->] & ?)
         |(refs & msg & _ & _ & [= _ ->] & ?)]])]]])];
    done.
Qed.

Lemma validate_closes_connection_witness :
  conn (validate demo_env "SELECT * FROM Studnet" init_state).2 = false.
Proof.
  apply (validate_closes_connection demo_env "SELECT * FROM Studnet" init_state
           (false, Some "no such table: Studnet",
            Some (_generate_suggestions_for_error "no such table: Studnet"
                    [Some "Studnet"] []))
           (validate demo_env "SELECT * FROM Studnet" init_state).2).
  vm_compute. reflexivity.
Defined.

(** A text with more, or fewer, opening than closing parentheses is
    refused with the syntax-error outcome as soon as the connection is
    there and the text is not blank, whatever the tokenizer and the engine
    would say. *)
Theorem validate_unbalanced_parentheses env st sql_query :
  db_connect env (connects st) = true →
  db_connect env (connects st + 2) = true →
  strip (chars sql_query) ≠ [] →
  count_char "(" sql_query ≠ count_char ")" sql_query →
  (validate env sql_query st).1
  = Ok (false, Some msg_syntax_error,
        Some ["检查SQL语法是否正确"; "确保关键字拼写正确"; "检查括号是否匹配"]).
Proof.
  intros Hc1 Hc2 Hblank Hcount.
  validate_prefix env st Hc1 Hc2 st3 Hin.
  rewrite bool_decide_eq_false_2 by done.
  unfold _check_basic_syntax. rewrite bool_decide_eq_true_2 by done.
  cbn [negb]. rewrite bind_run. destruct (close_run st3) as (st4 & -> & _).
  reflexivity.
Qed.

Lemma validate_unbalanced_parentheses_witness :
  (validate demo_env "SELECT (1" init_state).1
  = Ok (false, Some msg_syntax_error,
        Some ["检查SQL语法是否正确"; "确保关键字拼写正确"; "检查括号是否匹配"]).
Proof.
  apply (validate_unbalanced_parentheses demo_env init_state "SELECT (1").
  - reflexivity.
  - reflexivity.
  - vm_compute. discriminate.
  - vm_compute. lia.
Defined.

(** When the first connection fails, [validate] answers the connection
    message with an empty list of suggestions, for every text, after one
    connection attempt and with the catalog untouched. *)
Theorem validate_without_connection env st sql_query :
  db_connect env (connects st) = false →
  ∃ st',
    validate env sql_query st
    = (Ok (false, Some msg_connection_failed, Some []), st') ∧
    tables st' = tables st ∧ columns st' = columns st ∧
    connects st' = S (connects st).
Proof.
  intros Hc1. unfold validate. rewrite bind_run.
  destruct (connect_db_run env st) as (st1 & -> & Hk1 & Ht & Hc & _).
  rewrite Hc1. cbn [negb]. by exists st1.
Qed.

Lemma validate_without_connection_witness :
  ∃ st',
    validate unreachable_env "SELECT * FROM Student" stale_state
    = (Ok (false, Some msg_connection_failed, Some []), st') ∧
    tables st' = tables stale_state ∧ columns st' = columns stale_state ∧
    connects st' = S (connects stale_state).
Proof.
  apply (validate_without_connection unreachable_env stale_state
           "SELECT * FROM Student").
  reflexivity.
Defined.

(** ** More on the catalog *)

(** Once the catalog holds a table, [get_schema_info] answers from it
    without contacting the engine and leaves the object as it is; on an
    empty catalog it runs the refresh and answers what the refresh left,
    whether the refresh succeeded or not. *)
Theorem get_schema_info_uses_cache env st :
  (tables st ≠ ∅ → get_schema_info env st = (Ok (tables st), st)) ∧
  (tables st = ∅ →
   get_schema_info env st
   = (Ok (tables (_load_schema env st).2), (_load_schema env st).2)).
Proof.
  unfold get_schema_info. split; intros Ht.
  - rewrite bind_run. unfold get_state at 1.
    by rewrite bool_decide_eq_false_2.
  - rewrite bind_run. unfold get_state at 1.
    rewrite bool_decide_eq_true_2 by done. rewrite bind_run.
    by destruct (load_schema_run env st) as (b & st' & -> & _).
Qed.

Lemma get_schema_info_uses_cache_witness :
  get_schema_info demo_env stale_state = (Ok (tables stale_state), stale_state) ∧
  get_schema_info demo_env init_state
  = (Ok (tables (_load_schema demo_env init_state).2),
     (_load_schema demo_env init_state).2).
Proof.
  split.
  - apply (get_schema_info_uses_cache demo_env stale_state).
    intros Heq.
    apply (f_equal (λ m : gmap string (list string), m !! "Course")) in Heq.
    vm_compute in Heq. discriminate.
  - apply (get_schema_info_uses_cache demo_env init_state). reflexivity.
Defined.

Section keeps_facts.
Context (P : State → Prop).

Lemma keeps_ret {X : Type} (x : X) : keeps P (mret x : M X).
Proof. by intros st r st' [= <- <-]. Qed.

Lemma keeps_bind {X Y : Type} (m : M X) (f : X → M Y) :
  keeps P m → (∀ x, keeps P (f x)) → keeps P (m ≫= f).
Proof.
  intros Hm Hf st r st' Hrun HP. rewrite bind_run in Hrun.
  destruct (m st) as [[x|e] st1] eqn:Hmst.
  - eapply Hf; [done|]. by eapply Hm.
  - injection Hrun as <- <-. by eapply Hm.
Qed.

Lemma keeps_for_each {X : Type} (xs : list X) (body : X → M unit) :
  (∀ x, keeps P (body x)) → keeps P (for_each xs body).
Proof.
  intros Hbody. induction xs as [|x xs IH]; simpl.
  - apply keeps_ret.
  - apply keeps_bind; [apply Hbody | by intros _].
Qed.

Lemma keeps_try_sqlite {X : Type} (body : M X) (handler : string → M X) :
  keeps P body → (∀ msg, keeps P (handler msg)) →
  keeps P (try_sqlite body handler).
Proof.
  intros Hb Hh st r st' Hrun HP. unfold try_sqlite in Hrun.
  destruct (body st) as [[x|[msg| | |]] st1] eqn:Hbst;
    try (injection Hrun as <- <-; by eapply Hb).
  eapply Hh; [done|]. by eapply Hb.
Qed.

Lemma keeps_lift {X : Type} (r : Result X) : keeps P (lift r).
Proof. by intros st r' st' [= <- <-]. Qed.

Lemma keeps_get_state : keeps P get_state.
Proof. by intros st r' st' [= <- <-]. Qed.
End keeps_facts.

(** A property of the catalog alone is kept by what leaves the two
    dictionaries alone. *)
Lemma keeps_same_catalog {X : Type} (m : M X) :
  (∀ st r st', m st = (r, st') →
     tables st' = tables st ∧ columns st' = columns st) →
  keeps catalog_consistent m.
Proof.
  intros Hm st r st' Hrun Hst. destruct (Hm _ _ _ Hrun) as [Ht Hc].
  unfold catalog_consistent. by rewrite Ht, Hc.
Qed.

Lemma keeps_consistent_record ev : keeps catalog_consistent (record ev).
Proof. apply keeps_same_catalog. by intros st r st' [= <- <-]. Qed.

Lemma keeps_consistent_close : keeps catalog_consistent close.
Proof.
  apply keeps_same_catalog. intros st r st' Hrun.
  destruct (close_run st) as (st1 & Hclose & _ & Ht & Hc & _).
  rewrite Hclose in Hrun. by injection Hrun as <- <-.
Qed.

Lemma keeps_consistent_connect_db env : keeps catalog_consistent (_connect_db env).
Proof.
  apply keeps_same_catalog. intros st r st' Hrun.
  destruct (connect_db_run env st) as (st1 & Hconn & _ & Ht & Hc & _).
  rewrite Hconn in Hrun. by injection Hrun as <- <-.
Qed.

Lemma keeps_consistent_db_query {X : Type} ev (answer : DbAnswer X) :
  keeps catalog_consistent (db_query ev answer).
Proof.
  unfold db_query. apply keeps_bind; [apply keeps_consistent_record|].
  intros _. destruct answer; [apply keeps_ret | apply keeps_lift].
Qed.

Lemma owner_of_after_load index column table c t :
  let index1 :=
    if decide (is_Some (index !! column)) then index
    else <[column := []]> index in
  owner_of (alter (λ owners, owners ++ [table]) column index1) c t
  ↔ owner_of index c t ∨ (c = column ∧ t = table).
Proof.
  cbv zeta. unfold owner_of. destruct (decide (c = column)) as [->|Hne].
  - rewrite lookup_alter_eq. case_decide as Hsome.
    + destruct Hsome as [old Hold]. rewrite Hold. simpl. split.
      * intros (owners & [= <-] & Hin). apply elem_of_app in Hin as [Hin|Hin].
        -- left. by exists old.
        -- right. by apply list_elem_of_singleton in Hin.
      * intros [(owners & [= <-] & Hin)|[_ ->]];
          (eexists; split; [done|]); set_solver.
    + rewrite lookup_insert_eq. simpl. split.
      * intros (owners & [= <-] & Hin). right.
        by apply list_elem_of_singleton in Hin.
      * intros [(owners & Hold & _)|[_ ->]].
        -- exfalso. apply Hsome. by rewrite Hold.
        -- eexists. split; [done|]. set_solver.
  - rewrite lookup_alter_ne by done. case_decide as Hsome.
    + split; [by left | by intros [?|[? _]]].
    + rewrite lookup_insert_ne by done.
      split; [by left | by intros [?|[? _]]].
Qed.

Lemma keeps_consistent_load_column table col_info :
  keeps catalog_consistent (load_column table col_info).
Proof.
  intros st r st' Hrun Hst. unfold load_column in Hrun.
  rewrite bind_run in Hrun. unfold get_state, set_catalog in Hrun.
  injection Hrun as <- <-.
  intros t cols c. cbn [tables columns]. intros Hlook Hin.
  apply owner_of_after_load.
  destruct (decide (t = table)) as [->|Hne].
  - rewrite lookup_alter_eq in Hlook.
    destruct (tables st !! table) as [old|] eqn:Hold; [|done].
    injection Hlook as <-. apply elem_of_app in Hin as [Hin|Hin].
    + left. by eapply Hst.
    + right. by apply list_elem_of_singleton in Hin.
  - rewrite lookup_alter_ne in Hlook by done. left. by eapply Hst.
Qed.

Lemma keeps_consistent_load_table env table :
  keeps catalog_consistent (load_table env table).
Proof.
  unfold load_table. intros st r st' Hrun Hst.
  rewrite bind_run in Hrun. unfold get_state at 1 in Hrun.
  apply (λ Hm Hf, keeps_bind catalog_consistent _ _ Hm Hf st r st' Hrun Hst).
  - intros st0 r0 st0' [= <- <-] Hst0 t cols c. cbn [tables columns].
    destruct (decide (t = table)) as [->|Hne].
    + rewrite lookup_insert_eq. intros [= <-] Hin. by apply elem_of_nil in Hin.
    + rewrite lookup_insert_ne by done. apply Hst.
  - intros _. apply keeps_bind; [apply keeps_consistent_db_query|].
    intros cols. apply keeps_for_each. intros col.
    apply keeps_consistent_load_column.
Qed.

Lemma keeps_consistent_load_schema env : keeps catalog_consistent (_load_schema env).
Proof.
  unfold _load_schema. apply keeps_bind; [apply keeps_consistent_connect_db|].
  intros [|]; cbn [negb]; [|apply keeps_ret].
  apply keeps_try_sqlite.
  - apply keeps_bind; [apply keeps_consistent_db_query|]. intros names.
    apply keeps_bind.
    { intros st r st' [= <- <-] _ t cols c. cbn [tables].
      by rewrite lookup_empty. }
    intros _. apply keeps_bind.
    { apply keeps_for_each. intros t. apply keeps_consistent_load_table. }
    intros _. apply keeps_bind; [apply keeps_consistent_close|].
    intros _. apply keeps_ret.
  - intros msg. apply keeps_bind; [apply keeps_consistent_close|].
    intros _. apply keeps_ret.
Qed.

Lemma keeps_consistent_validate env sql_query :
  keeps catalog_consistent (validate env sql_query).
Proof.
  unfold validate. apply keeps_bind; [apply keeps_consistent_connect_db|].
  intros [|]; cbn [negb]; [|apply keeps_ret].
  apply keeps_bind; [apply keeps_consistent_load_schema|]. intros _.
  apply keeps_bind; [apply keeps_consistent_connect_db|].
  intros [|]; cbn [negb]; [|apply keeps_ret].
  case_bool_decide.
  { apply keeps_bind; [apply keeps_consistent_close | intros _; apply keeps_ret]. }
  destruct (negb _).
  { apply keeps_bind; [apply keeps_consistent_close | intros _; apply keeps_ret]. }
  destruct (sql_parse env sql_query) as [|parsed rest].
  { apply keeps_bind; [apply keeps_consistent_close | intros _; apply keeps_ret]. }
  case_bool_decide.
  { apply keeps_bind; [apply keeps_consistent_close | intros _; apply keeps_ret]. }
  apply keeps_bind; [apply keeps_lift|]. intros refs.
  apply keeps_bind; [apply keeps_get_state|]. intros st0.
  apply keeps_try_sqlite.
  - apply keeps_bind; [apply keeps_consistent_db_query|]. intros _.
    apply keeps_bind; [apply keeps_consistent_close | intros _; apply keeps_ret].
  - intros msg.
    apply keeps_bind; [apply keeps_consistent_close | intros _; apply keeps_ret].
Qed.

(** The column index never misses a column that [tables] lists: this
    holds of a new validator and is kept by the refresh and by [validate],
    however they end (success, failure half-way, exception). *)
Theorem catalog_stays_consistent env sql_query st :
  catalog_consistent init_state ∧
  (catalog_consistent st → catalog_consistent (_load_schema env st).2) ∧
  (catalog_consistent st → catalog_consistent (validate env sql_query st).2).
Proof.
  split; [|split].
  - intros t cols c. cbn [tables init_state]. by rewrite lookup_empty.
  - intros Hst. destruct (_load_schema env st) as [r st'] eqn:Hrun.
    by eapply keeps_consistent_load_schema.
  - intros Hst. destruct (validate env sql_query st) as [r st'] eqn:Hrun.
    by eapply keeps_consistent_validate.
Qed.

Lemma catalog_stays_consistent_witness :
  catalog_consistent (_load_schema flaky_env init_state).2 ∧
  catalog_consistent (validate flaky_env "SELECT * FROM Student" init_state).2.
Proof.
  destruct (catalog_stays_consistent flaky_env "SELECT * FROM Student" init_state)
    as (Hinit & Hload & Hvalidate).
  split; [exact (Hload Hinit) | exact (Hvalidate Hinit)].
Defined.

(** *** What a successful refresh leaves in the catalog *)

Lemma load_column_run table col st :
  ∃ st',
    load_column table col st = (Ok tt, st') ∧ conn st' = conn st ∧
    tables st' = alter (λ cols, cols ++ [col_name col]) table (tables st) ∧
    (∀ c t, owner_of (columns st') c t
            ↔ owner_of (columns st) c t ∨ (c = col_name col ∧ t = table)).
Proof.
  unfold load_column. rewrite bind_run. unfold get_state, set_catalog.
  eexists. split; [reflexivity|]. cbn [conn tables columns].
  split; [done|]. split; [done|]. intros c t. apply owner_of_after_load.
Qed.

Lemma for_each_load_column table cols st :
  ∃ st',
    for_each cols (load_column table) st = (Ok tt, st') ∧ conn st' = conn st ∧
    tables st' !! table
      = (λ old, old ++ (col_name <$> cols)) <$> (tables st !! table) ∧
    (∀ t, t ≠ table → tables st' !! t = tables st !! t) ∧
    (∀ c t, owner_of (columns st') c t
            ↔ owner_of (columns st) c t ∨ (t = table ∧ c ∈ col_name <$> cols)).
Proof.
  revert st. induction cols as [|col cols IH]; intros st.
  - exists st. split; [done|]. split; [done|]. split.
    { destruct (tables st !! table); simpl; [|done]. by rewrite app_nil_r. }
    split; [done|]. intros c t. split; [by left|].
    intros [?|[_ Hin]]; [done|]. by apply elem_of_nil in Hin.
  - cbn [for_each]. rewrite bind_run.
    destruct (load_column_run table col st) as (st1 & -> & Hconn1 & Ht1 & Ho1).
    destruct (IH st1) as (st' & -> & Hconn & Ht & Hother & Ho).
    exists st'. split; [done|]. split; [congruence|]. split; [|split].
    + rewrite Ht, Ht1, lookup_alter_eq.
      destruct (tables st !! table); simpl; [|done].
      by rewrite <-(assoc_L (++)).
    + intros t Hne. rewrite Hother, Ht1 by done. by rewrite lookup_alter_ne.
    + intros c t. rewrite Ho, Ho1, fmap_cons, elem_of_cons. tauto.
Qed.

Lemma load_table_run env table st :
  match db_table_info env table with
  | DbRows cols =>
      ∃ st',
        load_table env table st = (Ok tt, st') ∧ conn st' = conn st ∧
        (∀ t, tables st' !! t
              = if decide (t = table) then Some (col_name <$> cols)
                else tables st !! t) ∧
        (∀ c t, owner_of (columns st') c t
                ↔ owner_of (columns st) c t
                  ∨ (t = table ∧ c ∈ col_name <$> cols))
  | DbError msg =>
      ∃ st', load_table env table st = (Raise (SqliteError msg), st')
  end.
Proof.
  unfold load_table. rewrite bind_run. unfold get_state at 1.
  rewrite bind_run. unfold set_catalog at 1. rewrite bind_run.
  unfold db_query. rewrite bind_run. unfold record at 1.
  destruct (db_table_info env table) as [cols|msg]; [|by eexists].
  cbn [mret M_ret].
  match goal with |- context [for_each cols _ ?s] =>
    destruct (for_each_load_column table cols s)
      as (st' & -> & Hconn & Ht & Hother & Ho) end.
  cbn [conn tables columns] in *. rewrite lookup_insert_eq in Ht.
  exists st'. split; [done|]. split; [done|]. split; [|done].
  intros t. case_decide as Heq; [by subst|].
  rewrite Hother by done. by rewrite lookup_insert_ne.
Qed.

Lemma listed_columns_rows env table cols :
  db_table_info env table = DbRows cols →
  listed_columns env table = col_name <$> cols.
Proof. unfold listed_columns. by intros ->. Qed.

Lemma for_each_load_table env names st st' :
  for_each names (load_table env) st = (Ok tt, st') →
  conn st' = conn st ∧
  (∀ t, t ∈ names → ∃ cols, db_table_info env t = DbRows cols) ∧
  (∀ t, tables st' !! t
        = if decide (t ∈ names) then Some (listed_columns env t)
          else tables st !! t) ∧
  (∀ c t, owner_of (columns st') c t
          ↔ owner_of (columns st) c t
            ∨ (t ∈ names ∧ c ∈ listed_columns env t)).
Proof.
  revert st. induction names as [|n names IH]; intros st Hrun.
  - injection Hrun as <-. split; [done|]. split; [by intros t ?%elem_of_nil|].
    split; [done|]. intros c t. split; [by left|].
    intros [?|[Hin _]]; [done|]. by apply elem_of_nil in Hin.
  - cbn [for_each] in Hrun. rewrite bind_run in Hrun.
    pose proof (load_table_run env n st) as Hn.
    destruct (db_table_info env n) as [cols|msg] eqn:Hinfo.
    2:{ destruct Hn as (st1 & Hn). by rewrite Hn in Hrun. }
    destruct Hn as (st1 & Hn & Hconn1 & Ht1 & Ho1). rewrite Hn in Hrun.
    destruct (IH _ Hrun) as (Hconn & Hrows & Ht & Ho).
    pose proof (listed_columns_rows _ _ _ Hinfo) as Hlisted.
    split; [congruence|]. split; [|split].
    + intros t [->|Hin]%elem_of_cons; [by exists cols | by apply Hrows].
    + intros t. rewrite Ht, Ht1. rewrite <-Hlisted.
      repeat case_decide; subst; try done;
        exfalso; rewrite elem_of_cons in *; tauto.
    + intros c t. rewrite Ho, Ho1, <-Hlisted, elem_of_cons.
      intuition (subst; auto).
Qed.

(** After a refresh that answers [True], the catalog is what the engine
    listed: [tables] has exactly the listed tables, each with its listed
    column names in order, the column index names a table as owner of a
    column exactly when the table lists that column, and the connection
    is closed. *)
Theorem load_schema_success_mirrors_database env st st' :
  _load_schema env st = (Ok true, st') →
  ∃ names,
    db_table_names env = DbRows names ∧
    (∀ t, t ∈ names → ∃ cols, db_table_info env t = DbRows cols) ∧
    (∀ t, tables st' !! t
          = if decide (t ∈ names) then Some (listed_columns env t) else None) ∧
    (∀ c t, owner_of (columns st') c t
            ↔ t ∈ names ∧ c ∈ listed_columns env t) ∧
    conn st' = false.
Proof.
  unfold _load_schema. rewrite bind_run.
  destruct (connect_db_run env st) as (st1 & -> & _).
  destruct (db_connect env (connects st)); cbn [negb]; [|by intros [=]].
  unfold try_sqlite. rewrite bind_run. unfold db_query at 1.
  rewrite bind_run. unfold record at 1.
  destruct (db_table_names env) as [names|msg].
  2:{ unfold lift. rewrite bind_run.
      match goal with |- context [close ?s] =>
        destruct (close_run s) as (st2 & -> & _) end.
      by intros [=]. }
  cbn [mret M_ret]. rewrite bind_run. unfold set_catalog at 1. rewrite bind_run.
  match goal with |- context [for_each names _ ?s] =>
    destruct (for_each names (load_table env) s) as [[[]|e] st2] eqn:Hloop end.
  2:{ destruct e; [|by intros [=]..]. rewrite bind_run.
      destruct (close_run st2) as (st3 & -> & _). by intros [=]. }
  rewrite bind_run.
  destruct (close_run st2) as (st3 & Hclose & _ & Ht3 & Hc3 & _).
  destruct (close_run_conn st2) as (st3' & Hclose' & Hconn3).
  rewrite Hclose in Hclose'. injection Hclose' as <-.
  rewrite Hclose. intros [= <-].
  apply for_each_load_table in Hloop as (_ & Hrows & Ht & Ho).
  cbn [tables columns] in Ht, Ho.
  exists names. split; [done|]. split; [done|]. split; [|split; [|done]].
  - intros t. rewrite Ht3, Ht. by rewrite lookup_empty.
  - intros c t. rewrite Hc3, Ho. split; [|by right].
    intros [(owners & Hlook & _)|?]; [|done]. by rewrite lookup_empty in Hlook.
Qed.

Lemma load_schema_success_mirrors_database_witness :
  ∃ names,
    db_table_names demo_env = DbRows names ∧
    (∀ t, t ∈ names → ∃ cols, db_table_info demo_env t = DbRows cols) ∧
    (∀ t, tables (_load_schema demo_env stale_state).2 !! t
          = if decide (t ∈ names) then Some (listed_columns demo_env t)
            else None) ∧
    (∀ c t, owner_of (columns (_load_schema demo_env stale_state).2) c t
            ↔ t ∈ names ∧ c ∈ listed_columns demo_env t) ∧
    conn (_load_schema demo_env stale_state).2 = false.
Proof.
  apply (load_schema_success_mirrors_database demo_env stale_state
           (_load_schema demo_env stale_state).2).
  vm_compute. reflexivity.
Defined.

(** ** More on the plan builder fallback *)

Lemma plan_well_numbered_snoc plan p op :
  (p = (-1)%Z ∨ p = 0%Z) →
  plan_well_numbered plan →
  plan_well_numbered (plan ++ [mkPlanNode (plan_len plan) p op]).
Proof.
  intros Hp Hplan i node Hlook.
  apply lookup_app_Some in Hlook as [Hlook|[Hlen Hlook]]; [by apply Hplan|].
  apply list_lookup_singleton_Some in Hlook as [Hi <-].
  cbn [id parent]. split; [unfold plan_len; lia | done].
Qed.

Lemma plan_body_well_numbered st token :
  plan_well_numbered st.1.1.1 →
  plan_well_numbered (plan_body st token).1.1.1.
Proof.
  destruct st as [[[plan select_seen] from_seen] tbls]. cbn [fst].
  intros Hplan. unfold plan_body.
  destruct (ttype_is Keyword token); repeat case_bool_decide;
    destruct (_ && _); cbn [fst];
    repeat (apply plan_well_numbered_snoc; [auto|]); done.
Qed.

Lemma plan_fold_well_numbered tokens st :
  plan_well_numbered st.1.1.1 →
  plan_well_numbered (fold_left plan_body tokens st).1.1.1.
Proof.
  revert st. induction tokens as [|t tokens IH]; intros st Hst; [done|].
  simpl. by apply IH, plan_body_well_numbered.
Qed.

(** Every plan the fallback returns is non-empty, its nodes are numbered
    by position and every parent is the root marker [-1] or the id 0; the
    invariant that a parent is introduced earlier holds of it exactly when
    its first node is a root. *)
Theorem parse_sql_manually_plan_shape env sql_query plan :
  _parse_sql_manually env sql_query = Ok plan →
  plan ≠ [] ∧
  plan_well_numbered plan ∧
  (parent_introduced_earlier plan
   ↔ ∃ root rest, plan = root :: rest ∧ parent root = (-1)%Z).
Proof.
  intros Hrun. pose proof (parse_sql_manually_nonempty _ _ _ Hrun) as Hne.
  assert (plan_well_numbered plan) as Hshape.
  { unfold _parse_sql_manually in Hrun.
    destruct (py_index _ 0) as [parsed|]; [|discriminate].
    cbn [mbind Result_bind] in Hrun.
    destruct (token_tokens parsed) as [tokens|]; [|discriminate].
    cbn [mbind Result_bind] in Hrun.
    pose proof (plan_fold_well_numbered tokens ([], false, false, [])) as Hfold.
    destruct (fold_left plan_body tokens ([], false, false, []))
      as [[[built ?] ?] ?].
    cbn [fst] in Hfold. case_bool_decide; injection Hrun as <-.
    - intros [|[|i]] node [= <-]; cbn [id parent]; auto.
    - apply Hfold. by intros i node ?. }
  split; [done|]. split; [done|].
  destruct plan as [|root rest]; [done|]. split.
  - intros Hearlier. exists root, rest. split; [done|].
    destruct (decide (parent root = (-1)%Z)) as [|Hnot]; [done|].
    destruct (Hearlier 0 root eq_refl Hnot) as (j & ? & Hj & _). lia.
  - intros (root' & rest' & [= <- <-] & Hroot) i node Hlook Hnot.
    destruct (Hshape i node Hlook) as [_ [?|Hzero]]; [done|].
    destruct i as [|i]; [simpl in Hlook; congruence|].
    exists 0, root. split; [lia|]. split; [done|].
    destruct (Hshape 0 root eq_refl) as [-> _]. by rewrite Hzero.
Qed.

Lemma parse_sql_manually_plan_shape_witness :
  [mkPlanNode 0 0 "SCAN TABLE t"] ≠ [] ∧
  plan_well_numbered [mkPlanNode 0 0 "SCAN TABLE t"] ∧
  (parent_introduced_earlier [mkPlanNode 0 0 "SCAN TABLE t"]
   ↔ ∃ root rest, [mkPlanNode 0 0 "SCAN TABLE t"] = root :: rest
                  ∧ parent root = (-1)%Z).
Proof.
  apply (parse_sql_manually_plan_shape demo_env "SELECT * FROM t").
  vm_compute. reflexivity.
Defined.

(** ** The column extractor *)

Lemma columns_loop_stops_at_from pre from post post' select_seen found :
  keyword_is from "FROM" = true →
  columns_loop (pre ++ from :: post) select_seen false found
  = columns_loop (pre ++ from :: post') select_seen false found.
Proof.
  intros Hfrom. revert select_seen found.
  induction pre as [|t pre IH]; intros select_seen found.
  - assert (keyword_is from "SELECT" = false) as Hselect.
    { unfold keyword_is in *.
      apply andb_prop in Hfrom as [_ Hword%bool_decide_eq_true].
      rewrite Hword, bool_decide_eq_false_2 by done. apply andb_false_r. }
    cbn [app columns_loop]. rewrite Hfrom, Hselect. by destruct post, post'.
  - cbn [app columns_loop].
    destruct (keyword_is t "SELECT"); [apply IH|].
    destruct (keyword_is t "FROM").
    { clear IH. destruct pre; cbn [app columns_loop]; done. }
    destruct select_seen; [|apply IH].
    destruct (columns_of_token found t); cbn [mbind Result_bind]; [apply IH|done].
Qed.

(** The column extractor answers the empty list for a statement that is
    not a SELECT, and for a SELECT it stops at the first FROM keyword:
    what follows it (the tables, the WHERE clause) does not change the
    answer, exception included. *)
Theorem extract_columns_stops_at_from
    get_type rn pre from post post' :
  (get_type (Group Statement rn (pre ++ from :: post)) ≠ "SELECT" →
   _extract_columns get_type (Group Statement rn (pre ++ from :: post)) = Ok []) ∧
  (keyword_is from "FROM" = true →
   get_type (Group Statement rn (pre ++ from :: post)) = "SELECT" →
   get_type (Group Statement rn (pre ++ from :: post')) = "SELECT" →
   _extract_columns get_type (Group Statement rn (pre ++ from :: post))
   = _extract_columns get_type (Group Statement rn (pre ++ from :: post'))).
Proof.
  split.
  - intros Hty. unfold _extract_columns. by rewrite bool_decide_eq_true_2.
  - intros Hfrom Hty Hty'. unfold _extract_columns.
    rewrite Hty, Hty'. rewrite !bool_decide_eq_false_2 by (by intros []).
    by apply columns_loop_stops_at_from.
Qed.

(** [SELECT Sname FROM Student WHERE Sage > 18] and the same statement
    without its WHERE clause give the one column Sname. *)
Lemma extract_columns_stops_at_from_witness :
  _extract_columns first_keyword_type
    (select_sname_from_student where_sage_over_18)
  = _extract_columns first_keyword_type (select_sname_from_student []) ∧
  _extract_columns first_keyword_type
    (select_sname_from_student where_sage_over_18)
  = Ok [(Some "Sname", None)].
Proof.
  split; [|by vm_compute].
  apply (extract_columns_stops_at_from first_keyword_type None
           [Leaf Keyword_DML "SELECT"; ws; ident "Sname"; ws]
           (Leaf Keyword "FROM")
           ([ws; ident "Student"] ++ where_sage_over_18)
           ([ws; ident "Student"] ++ [])).
  - reflexivity.
  - reflexivity.
  - reflexivity.
Defined.

(** ** Connections are opened and closed in pairs *)

Lemma open_connections_snoc evs ev :
  open_connections (evs ++ [ev])
  = (match ev with
     | EvConnect true => open_connections evs + 1
     | EvClose => open_connections evs - 1
     | _ => open_connections evs
     end)%Z.
Proof. unfold open_connections. by rewrite fold_left_app. Qed.

Lemma keeps_accounted_same {X : Type} (m : M X) :
  (∀ st r st', m st = (r, st') →
     conn st' = conn st ∧
     open_connections (events st') = open_connections (events st)) →
  keeps connection_accounted m.
Proof.
  intros Hm st r st' Hrun Hst. destruct (Hm _ _ _ Hrun) as [Hc He].
  unfold connection_accounted. by rewrite Hc, He.
Qed.

Lemma keeps_accounted_close : keeps connection_accounted close.
Proof.
  intros [c t cl k evs] r st'. unfold close, connection_accounted.
  rewrite bind_run. unfold get_state. cbn [conn events].
  destruct c; intros [= <- <-]; cbn [conn events]; [|done].
  rewrite open_connections_snoc. lia.
Qed.

Lemma keeps_accounted_connect_db env : keeps connection_accounted (_connect_db env).
Proof.
  intros [c t cl k evs] r st'. unfold _connect_db, connection_accounted.
  rewrite bind_run. unfold get_state. cbn [conn events connects].
  destruct c; intros [= <- <-]; cbn [conn events];
    rewrite !open_connections_snoc; destruct (db_connect env k); lia.
Qed.

Lemma keeps_accounted_set_catalog t c : keeps connection_accounted (set_catalog t c).
Proof. apply keeps_accounted_same. by intros st r st' [= <- <-]. Qed.

Lemma keeps_accounted_db_query {X : Type} ev (answer : DbAnswer X) :
  match ev with EvConnect _ | EvClose => False | _ => True end →
  keeps connection_accounted (db_query ev answer).
Proof.
  intros Hev. apply keeps_accounted_same. intros [c t cl k evs] r st'.
  unfold db_query. rewrite bind_run. unfold record. cbn [conn events].
  destruct answer; intros [= <- <-]; cbn [conn events];
    rewrite open_connections_snoc; by destruct ev.
Qed.

Lemma keeps_accounted_load_table env table :
  keeps connection_accounted (load_table env table).
Proof.
  unfold load_table. apply keeps_bind; [apply keeps_get_state|]. intros st0.
  apply keeps_bind; [apply keeps_accounted_set_catalog|]. intros _.
  apply keeps_bind; [by apply keeps_accounted_db_query|]. intros cols.
  apply keeps_for_each. intros col. unfold load_column.
  apply keeps_bind; [apply keeps_get_state|]. intros st1.
  apply keeps_accounted_set_catalog.
Qed.

Lemma keeps_accounted_load_schema env : keeps connection_accounted (_load_schema env).
Proof.
  unfold _load_schema. apply keeps_bind; [apply keeps_accounted_connect_db|].
  intros [|]; cbn [negb]; [|apply keeps_ret].
  apply keeps_try_sqlite.
  - apply keeps_bind; [by apply keeps_accounted_db_query|]. intros names.
    apply keeps_bind; [apply keeps_accounted_set_catalog|]. intros _.
    apply keeps_bind.
    { apply keeps_for_each. intros t. apply keeps_accounted_load_table. }
    intros _. apply keeps_bind; [apply keeps_accounted_close|].
    intros _. apply keeps_ret.
  - intros msg. apply keeps_bind; [apply keeps_accounted_close|].
    intros _. apply keeps_ret.
Qed.

Lemma keeps_accounted_validate env sql_query :
  keeps connection_accounted (validate env sql_query).
Proof.
  unfold validate. apply keeps_bind; [apply keeps_accounted_connect_db|].
  intros [|]; cbn [negb]; [|apply keeps_ret].
  apply keeps_bind; [apply keeps_accounted_load_schema|]. intros _.
  apply keeps_bind; [apply keeps_accounted_connect_db|].
  intros [|]; cbn [negb]; [|apply keeps_ret].
  case_bool_decide.
  { apply keeps_bind; [apply keeps_accounted_close | intros _; apply keeps_ret]. }
  destruct (negb _).
  { apply keeps_bind; [apply keeps_accounted_close | intros _; apply keeps_ret]. }
  destruct (sql_parse env sql_query) as [|parsed rest].
  { apply keeps_bind; [apply keeps_accounted_close | intros _; apply keeps_ret]. }
  case_bool_decide.
  { apply keeps_bind; [apply keeps_accounted_close | intros _; apply keeps_ret]. }
  apply keeps_bind; [apply keeps_lift|]. intros refs.
  apply keeps_bind; [apply keeps_get_state|]. intros st0.
  apply keeps_try_sqlite.
  - apply keeps_bind; [by apply keeps_accounted_db_query|]. intros _.
    apply keeps_bind; [apply keeps_accounted_close | intros _; apply keeps_ret].
  - intros msg.
    apply keeps_bind; [apply keeps_accounted_close | intros _; apply keeps_ret].
Qed.

(** A validator never holds two connections and never closes one it does
    not hold: through the refresh and through [validate] the connects and
    closes recorded leave one connection open when the object holds one,
    none otherwise; after [validate] has returned an outcome none is
    open. *)
Theorem connections_are_paired env sql_query st :
  connection_accounted init_state ∧
  (connection_accounted st →
   connection_accounted (_load_schema env st).2 ∧
   connection_accounted (validate env sql_query st).2 ∧
   ∀ outcome st',
     validate env sql_query st = (Ok outcome, st') →
     open_connections (events st') = 0%Z).
Proof.
  split; [done|]. intros Hst. split; [|split].
  - destruct (_load_schema env st) as [r st'] eqn:Hrun.
    by eapply keeps_accounted_load_schema.
  - destruct (validate env sql_query st) as [r st'] eqn:Hrun.
    by eapply keeps_accounted_validate.
  - intros outcome st' Hrun.
    pose proof (keeps_accounted_validate _ _ _ _ _ Hrun Hst) as Hacc.
    destruct (validate_run env sql_query st) as (st0 & Hcases).
    rewrite Hrun in Hcases. unfold connection_accounted in Hacc.
    destruct Hcases as [([= _ ->] & Hc & _)
      |(_ & _ & [([= _ ->] & Hc & _)|[([= _ ->] & Hc & _)|[([= _ ->] & Hc & _)
      |(parsed & _ & _ & _ & [(e & _ & [=] & _)
          |[(refs & _ & _ & [= _ ->] & Hc)
           |(refs & msg & _ & _ & [= _ ->] & Hc)]])]]])];
      by rewrite Hc in Hacc.
Qed.

Lemma connections_are_paired_witness :
  connection_accounted (_load_schema flaky_env init_state).2 ∧
  connection_accounted (validate demo_env "SELECT * FROM Student" init_state).2 ∧
  open_connections
    (events (validate demo_env "SELECT * FROM Student" init_state).2) = 0%Z.
Proof.
  destruct (connections_are_paired flaky_env "" init_state) as (Hinit & Hflaky).
  destruct (connections_are_paired demo_env "SELECT * FROM Student" init_state)
    as (_ & Hdemo).
  split; [exact (proj1 (Hflaky Hinit))|].
  split; [exact (proj1 (proj2 (Hdemo Hinit)))|].
  apply (proj2 (proj2 (Hdemo Hinit)) (true, None, None)
           (validate demo_env "SELECT * FROM Student" init_state).2).
  vm_compute. reflexivity.
Defined.

(** ** Executing statements *)

Ltac concrete_elem_of Hin :=
  repeat (apply elem_of_cons in Hin as [Hin|Hin]; [try discriminate Hin|]);
  try (by apply elem_of_nil in Hin).

Lemma execute_and_visualize_run venv sql_query st :
  ∃ result st' added,
    Visualizer.execute_and_visualize venv sql_query st = (Ok result, st') ∧
    vconn st' = false ∧
    vevents st' = vevents st ++ added ∧
    (∀ s, VExecute s ∈ added → s = sql_query) ∧
    (VCommit ∈ added →
     Visualizer.starts_with_select sql_query = false ∧
     ∃ rows, vis_execute venv sql_query = DbRows rows) ∧
    (result.1.1 = true → ∃ rows, vis_execute venv sql_query = DbRows rows).
Proof.
  destruct st as [c k evs].
  unfold Visualizer.execute_and_visualize, Visualizer._connect_db,
    Visualizer.try_except, Visualizer.db_call, Visualizer.close,
    Visualizer.bind, Visualizer.ret, Visualizer.record, Visualizer.set_conn,
    Visualizer.count_connect.
  cbn [vconn vconnects vevents].
  destruct c, (vis_connect venv k); cbn [negb vconn vconnects vevents];
    try (eexists _, _, _; split; [reflexivity|]; split; [reflexivity|];
         cbn [vevents]; split; [by rewrite <-?(assoc_L (++))|];
         split; [intros s Hin; concrete_elem_of Hin|];
         split; [intros Hin; concrete_elem_of Hin | done]).
  all: destruct (vis_execute venv sql_query) as [[rows description]|msg];
    cbn [vconn vconnects vevents];
    [destruct (Visualizer.starts_with_select sql_query); cbn [negb];
       [|destruct (vis_commit venv) as [[]|msg]]|];
    cbn [vconn vconnects vevents];
    eexists _, _, _; (split; [reflexivity|]); (split; [reflexivity|]);
    cbn [vevents fst];
    (split; [by rewrite <-?(assoc_L (++))|]);
    (split; [intros s Hin; concrete_elem_of Hin; by injection Hin|]);
    (split; [intros Hin; concrete_elem_of Hin; eauto | try done; eauto]).
Qed.

(** [execute_and_visualize] always returns and leaves the visualizer
    without connection; it sends no statement but the one it was given,
    commits only after that statement ran and only when its text does not
    start with SELECT, and reports success only when the statement ran. *)
Theorem execute_and_visualize_commits_only_non_select venv sql_query st :
  ∃ result st' added,
    Visualizer.execute_and_visualize venv sql_query st = (Ok result, st') ∧
    vconn st' = false ∧
    vevents st' = vevents st ++ added ∧
    (∀ s, VExecute s ∈ added → s = sql_query) ∧
    (VCommit ∈ added →
     Visualizer.starts_with_select sql_query = false ∧
     ∃ rows, vis_execute venv sql_query = DbRows rows) ∧
    (result.1.1 = true → ∃ rows, vis_execute venv sql_query = DbRows rows).
Proof. apply execute_and_visualize_run. Qed.

Lemma execute_and_visualize_commits_only_non_select_witness :
  Visualizer.starts_with_select "DELETE FROM Student" = false ∧
  ∃ rows, vis_execute demo_vis_env "DELETE FROM Student" = DbRows rows.
Proof.
  destruct (execute_and_visualize_commits_only_non_select demo_vis_env
              "DELETE FROM Student" vis_init_state)
    as (result & st' & added & Hrun & _ & Hadded & _ & Hcommit & _).
  apply Hcommit. vm_compute in Hrun. injection Hrun as <- <-.
  simpl in Hadded. subst added. do 2 right. left.
Defined.

Lemma execute_statement_run env venv session fragment :
  ∃ added,
    vevents (execute_statement env venv session fragment).2
    = vevents session.2 ++ added ∧
    ∀ s, VExecute s ∈ added →
      s = py_strip fragment ∧ s ≠ "" ∧
      ∃ st parsed,
        (validate env s st).1 = Ok (true, None, None) ∧
        sql_parse env s = [parsed] ∧
        db_explain env (token_value parsed) = DbRows tt.
Proof.
  destruct session as [st vst]. unfold execute_statement. cbn [fst snd].
  set (statement := py_strip fragment).
  assert (∃ added : list VisEvent,
            vevents vst = vevents vst ++ added ∧
            ∀ s, VExecute s ∈ added →
              s = statement ∧ s ≠ "" ∧
              ∃ st parsed,
                (validate env s st).1 = Ok (true, None, None) ∧
                sql_parse env s = [parsed] ∧
                db_explain env (token_value parsed) = DbRows tt) as Hnone.
  { exists []. split; [by rewrite app_nil_r|]. by intros s ?%elem_of_nil. }
  case_bool_decide as Hempty; [done|].
  destruct (validate_run env statement st) as (st0 & Hcases).
  destruct (validate env statement st) as [[[[is_valid msg] sugg]|e] st'] eqn:Hv;
    [|done].
  destruct is_valid; [|done]. cbn [snd].
  destruct (execute_and_visualize_run venv statement vst)
    as (result & vst' & added & -> & _ & Hadded & Hexec & _).
  exists added. split; [done|]. intros s Hs. rewrite (Hexec s Hs).
  split; [done|]. split; [done|].
  destruct Hcases as [([=] & _)
    |(_ & _ & [([=] & _)|[([=] & _)|[([=] & _)
    |(parsed & _ & _ & Hparse & [(e & _ & [=] & _)
        |[(refs & _ & Hexplain & [= -> -> <-] & _)
         |(refs & m & _ & _ & [=] & _)]])]]])].
  exists st, parsed. by rewrite Hv.
Qed.

(** Whatever [execute_sql_statements] hands to the engine for execution
    is a fragment of the input, stripped and not empty, that [validate]
    had declared valid and that the explain-plan probe had accepted;
    blank fragments, refused fragments and fragments on which [validate]
    raised are not executed, and do not stop the loop. *)
Theorem execute_sql_statements_runs_only_validated
    sql_split env venv sql_query session :
  ∃ added,
    vevents (execute_sql_statements sql_split env venv sql_query session).2
    = vevents session.2 ++ added ∧
    ∀ s, VExecute s ∈ added →
      (∃ fragment, fragment ∈ sql_split sql_query ∧ s = py_strip fragment) ∧
      s ≠ "" ∧
      ∃ st parsed,
        (validate env s st).1 = Ok (true, None, None) ∧
        sql_parse env s = [parsed] ∧
        db_explain env (token_value parsed) = DbRows tt.
Proof.
  unfold execute_sql_statements. generalize (sql_split sql_query).
  intros fragments. revert session.
  induction fragments as [|fragment fragments IH]; intros session.
  { exists []. split; [by rewrite app_nil_r|]. by intros s ?%elem_of_nil. }
  cbn [fold_left].
  destruct (execute_statement_run env venv session fragment)
    as (added1 & Hev1 & Hadded1).
  destruct (IH (execute_statement env venv session fragment))
    as (added2 & Hev2 & Hadded2).
  exists (added1 ++ added2). split.
  { by rewrite Hev2, Hev1, (assoc_L (++)). }
  intros s [Hs|Hs]%elem_of_app.
  - destruct (Hadded1 s Hs) as (Hfrag & Hne & Hvalid).
    split; [|done]. exists fragment. split; [left | done].
  - destruct (Hadded2 s Hs) as ((f & Hf & Hfrag) & Hne & Hvalid).
    split; [|done]. exists f. split; [by right | done].
Qed.

Lemma execute_sql_statements_runs_only_validated_witness :
  vevents
    (execute_sql_statements demo_split demo_env demo_vis_env
       "SELECT * FROM Studnet; SELECT * FROM Student"
       (init_state, vis_init_state)).2
  = [VConnect true; VExecute "SELECT * FROM Student"; VClose] ∧
  ∃ st parsed,
    (validate demo_env "SELECT * FROM Student" st).1 = Ok (true, None, None) ∧
    sql_parse demo_env "SELECT * FROM Student" = [parsed] ∧
    db_explain demo_env (token_value parsed) = DbRows tt.
Proof.
  split; [by vm_compute|].
  destruct (execute_sql_statements_runs_only_validated demo_split demo_env
              demo_vis_env "SELECT * FROM Studnet; SELECT * FROM Student"
              (init_state, vis_init_state))
    as (added & Hev & Hadded).
  vm_compute in Hev. subst added.
  apply (Hadded "SELECT * FROM Student"). right. left.
Defined.
